(** * Verification model of causal_validation: placebo tests and transforms

    Source: [src/causal_validation/validation/placebo.py] ([PlaceboTest],
    [PlaceboTestResult], [PlaceboSchema]).  The transforms ([Periodic],
    [Trend]) and [Parameter] are not part of the sources at hand; they are
    modelled from the specification (see the doc comments that say so). *)

From Stdlib Require Import Reals Psatz ZArith.
From Stdlib Require PrimFloat.
From Stdlib Require SpecFloat FloatOps FloatAxioms.
From Stdlib Require Uint63.
From Stdlib Require Import String List Bool Arith Lia.
From Stdlib Require Import Permutation.
Import ListNotations.

#[global] Set Warnings "-inexact-float".

(* ------------------------------------------------------------------ *)
(** ** Python dictionaries keyed by (model name, dataset name)          *)

Module PyDict.

Definition key := (string * string)%type.

Definition key_eqb (k k' : key) : bool :=
  String.eqb (fst k) (fst k') && String.eqb (snd k) (snd k').

(** [d[k] = v]: an existing key keeps its insertion position and gets the
    new value; a new key is appended (insertion-ordered dict). *)
Fixpoint dict_set {V} (d : list (key * V)) (k : key) (v : V) : list (key * V) :=
  match d with
  | [] => [(k, v)]
  | (k', v') :: d' =>
      if key_eqb k k' then (k', v) :: d' else (k', v') :: dict_set d' k v
  end.

Fixpoint dict_get {V} (d : list (key * V)) (k : key) : option V :=
  match d with
  | [] => None
  | (k', v') :: d' => if key_eqb k k' then Some v' else dict_get d' k
  end.

(** A sequence of assignments [d[k1] = v1; d[k2] = v2; ...]. *)
Fixpoint set_all {V} (d : list (key * V)) (kvs : list (key * V)) : list (key * V) :=
  match kvs with
  | [] => d
  | (k, v) :: kvs' => set_all (dict_set d k v) kvs'
  end.

(** The value of the last assignment to [k] in a sequence of assignments. *)
Fixpoint last_assoc {V} (k : key) (kvs : list (key * V)) : option V :=
  match kvs with
  | [] => None
  | (k', v) :: kvs' =>
      match last_assoc k kvs' with
      | Some w => Some w
      | None => if key_eqb k k' then Some v else None
      end
  end.

End PyDict.
Import PyDict.

(* ------------------------------------------------------------------ *)
(** ** [PlaceboTest.execute]                                             *)

Module Placebo.

Section Execute.

(** The dataset, the model result and the exceptions a model may raise are
    left abstract: [Dataset.n_units] and [Dataset.to_placebo_data] are the
    only operations [execute] uses. *)
Variables (Dataset Result Exn : Type).
Variable n_units : Dataset -> nat.
Variable to_placebo_data : Dataset -> nat -> Dataset.

(** A model: its [_model_name] and its [__call__], which either returns a
    [Result] or raises. *)
Record AZCausalWrapper := {
  _model_name : string;
  model_call : Dataset -> Exn + Result
}.

Record PlaceboTestResult := { effects : list (key * list Result) }.

(** Observable trace of model invocations: (model name, dataset name, unit). *)
Definition label := (string * string * nat)%type.

(** Error monad with an invocation trace that survives exceptions. *)
Definition M (A : Type) := list label -> (Exn + A) * list label.

Definition ret {A} (a : A) : M A := fun tr => (inr a, tr).

Definition bind {A B} (p : M A) (f : A -> M B) : M B :=
  fun tr =>
    match p tr with
    | (inl e, tr') => (inl e, tr')
    | (inr a, tr') => f a tr'
    end.

Notation "'let*' x := p 'in' q" := (bind p (fun x => q))
  (at level 200, x name, p at level 100, q at level 200).

(** [result = model(dataset.to_placebo_data(i))] *)
Definition invoke (model : AZCausalWrapper) (data_name : string)
    (dataset : Dataset) (i : nat) : M Result :=
  fun tr => (model_call model (to_placebo_data dataset i),
             tr ++ [(_model_name model, data_name, i)]).

(** [for i in range(dataset.n_units): ...; model_result.append(result)] *)
Fixpoint unit_loop (model : AZCausalWrapper) (data_name : string)
    (dataset : Dataset) (is : list nat) (model_result : list Result)
    : M (list Result) :=
  match is with
  | [] => ret model_result
  | i :: is' =>
      let* result := invoke model data_name dataset i in
      unit_loop model data_name dataset is' (model_result ++ [result])
  end.

(** [for model in self.models: ...; results[(model._model_name, data_name)] = model_result] *)
Fixpoint model_loop (data_name : string) (dataset : Dataset)
    (models : list AZCausalWrapper) (results : list (key * list Result))
    : M (list (key * list Result)) :=
  match models with
  | [] => ret results
  | model :: models' =>
      let* model_result :=
        unit_loop model data_name dataset (seq 0 (n_units dataset)) [] in
      model_loop data_name dataset models'
        (dict_set results (_model_name model, data_name) model_result)
  end.

(** [for data_name, dataset in datasets.items(): ...] *)
Fixpoint data_loop (datasets : list (string * Dataset))
    (models : list AZCausalWrapper) (results : list (key * list Result))
    : M (list (key * list Result)) :=
  match datasets with
  | [] => ret results
  | (data_name, dataset) :: datasets' =>
      let* results' := model_loop data_name dataset models results in
      data_loop datasets' models results'
  end.

(** [PlaceboTest.execute]; [dataset_dict] is [self.dataset_dict.items()] in
    iteration order.  The progress bars are observational and omitted. *)
Definition execute (models : list AZCausalWrapper)
    (dataset_dict : list (string * Dataset)) : M PlaceboTestResult :=
  let* results := data_loop dataset_dict models [] in
  ret {| effects := results |}.

(** *** The invocations of a run, in loop order *)

Definition call_item := (AZCausalWrapper * string * Dataset * nat)%type.

Definition outcome (c : call_item) : Exn + Result :=
  let '(m, _, d, i) := c in model_call m (to_placebo_data d i).

Definition label_of (c : call_item) : label :=
  let '(m, dn, _, i) := c in (_model_name m, dn, i).

Definition unit_calls (m : AZCausalWrapper) (dn : string) (d : Dataset)
    (is : list nat) : list call_item :=
  map (fun i => (m, dn, d, i)) is.

Definition model_calls (dn : string) (d : Dataset) (ms : list AZCausalWrapper)
    : list call_item :=
  flat_map (fun m => unit_calls m dn d (seq 0 (n_units d))) ms.

Definition calls (ms : list AZCausalWrapper) (ds : list (string * Dataset))
    : list call_item :=
  flat_map (fun '(dn, d) => model_calls dn d ms) ds.

Fixpoint first_error (cs : list call_item) : option Exn :=
  match cs with
  | [] => None
  | c :: cs' => match outcome c with inl e => Some e | inr _ => first_error cs' end
  end.

(** The invocations actually performed: all up to and including the first
    one that raises. *)
Fixpoint performed (cs : list call_item) : list call_item :=
  match cs with
  | [] => []
  | c :: cs' => c :: match outcome c with inl _ => [] | inr _ => performed cs' end
  end.

(** [p] performs the invocations [cs] in order, stopping at the first one
    that raises and re-raising its exception. *)
Definition Runs {A} (p : M A) (cs : list call_item) : Prop :=
  forall tr,
    snd (p tr) = tr ++ map label_of (performed cs) /\
    match fst (p tr) with
    | inl e => first_error cs = Some e
    | inr _ => first_error cs = None
    end.

(** The dictionary entry that the iteration for (model, dataset) writes
    when none of its invocations raises: key and the list of results, one
    per control unit, in order. *)
Definition pair_entry_ok (m : AZCausalWrapper) (dn : string) (d : Dataset)
    (kv : key * list Result) : Prop :=
  fst kv = (_model_name m, dn) /\
  map inr (snd kv) = map (fun i => model_call m (to_placebo_data d i)) (seq 0 (n_units d)).

End Execute.

Arguments ret {Exn A}.
Arguments bind {Exn A B}.

End Placebo.

(** *** Concrete placebo runs used as witnesses

    A dataset is represented by its number of control units, the placebo
    view of unit [i] by [i] itself, results and exceptions by [nat] and
    [string]. *)
Module PlaceboToy.
Import Placebo.

Definition Model := AZCausalWrapper nat nat string.

Definition toy_execute := execute nat nat string (fun d => d) (fun _ i => i).

Definition toy_model (name : string) (f : nat -> string + nat) : Model :=
  Build_AZCausalWrapper nat nat string name f.

(** A model that returns its input. *)
Definition echo (name : string) : Model := toy_model name (fun i => inr i).

(** A model that raises on the placebo view of unit 1. *)
Definition fails_on_one (name : string) : Model :=
  toy_model name (fun i => if Nat.eqb i 1 then inl "boom"%string else inr i).

End PlaceboToy.

(* ------------------------------------------------------------------ *)
(** ** [PlaceboTest.execute] with its progress bars                      *)

(** The same loops as [Placebo.execute], together with the three [rich]
    progress tasks that [execute] creates and advances.  A task is its
    [completed] count and the [total] given to [add_task]. *)
Module PlaceboProgress.
Import Placebo.

Record Task := { completed : nat; total : nat }.

(** [progress.update(task, advance=1)] *)
Definition advance (t : Task) : Task :=
  {| completed := S (completed t); total := total t |}.

Record Progress := { model_task : Task; data_task : Task; unit_task : Task }.

Section ExecuteProgress.
Variables (Dataset Result Exn : Type).
Variable n_units : Dataset -> nat.
Variable to_placebo_data : Dataset -> nat -> Dataset.

Local Abbreviation Model := (AZCausalWrapper Dataset Result Exn).

(** Error monad over the invocation trace and the progress state. *)
Definition PM (A : Type) := list label * Progress -> (Exn + A) * (list label * Progress).

Definition pret {A} (a : A) : PM A := fun st => (inr a, st).

Definition pbind {A B} (p : PM A) (f : A -> PM B) : PM B :=
  fun st =>
    match p st with
    | (inl e, st') => (inl e, st')
    | (inr a, st') => f a st'
    end.

Local Notation "'let+' x := p 'in' q" := (pbind p (fun x => q))
  (at level 200, x name, p at level 100, q at level 200).

Definition update_model : PM unit := fun '(tr, p) =>
  (inr tt, (tr, {| model_task := advance (model_task p); data_task := data_task p;
                   unit_task := unit_task p |})).

Definition update_data : PM unit := fun '(tr, p) =>
  (inr tt, (tr, {| model_task := model_task p; data_task := advance (data_task p);
                   unit_task := unit_task p |})).

Definition update_unit : PM unit := fun '(tr, p) =>
  (inr tt, (tr, {| model_task := model_task p; data_task := data_task p;
                   unit_task := advance (unit_task p) |})).

Definition p_invoke (model : Model) (data_name : string) (dataset : Dataset) (i : nat)
  : PM Result := fun '(tr, p) =>
  (model_call _ _ _ model (to_placebo_data dataset i),
   (tr ++ [(_model_name _ _ _ model, data_name, i)], p)).

(** [for i in range(dataset.n_units): progress.update(unit_task, advance=1); ...] *)
Fixpoint p_unit_loop (model : Model) (data_name : string) (dataset : Dataset)
    (is : list nat) (model_result : list Result) : PM (list Result) :=
  match is with
  | [] => pret model_result
  | i :: is' =>
      let+ _ := update_unit in
      let+ result := p_invoke model data_name dataset i in
      p_unit_loop model data_name dataset is' (model_result ++ [result])
  end.

(** [for model in self.models: progress.update(model_task, advance=1); ...] *)
Fixpoint p_model_loop (data_name : string) (dataset : Dataset) (models : list Model)
    (results : list (key * list Result)) : PM (list (key * list Result)) :=
  match models with
  | [] => pret results
  | model :: models' =>
      let+ _ := update_model in
      let+ model_result :=
        p_unit_loop model data_name dataset (seq 0 (n_units dataset)) [] in
      p_model_loop data_name dataset models'
        (dict_set results (_model_name _ _ _ model, data_name) model_result)
  end.

(** [for data_name, dataset in datasets.items(): progress.update(data_task, advance=1); ...] *)
Fixpoint p_data_loop (datasets : list (string * Dataset)) (models : list Model)
    (results : list (key * list Result)) : PM (list (key * list Result)) :=
  match datasets with
  | [] => pret results
  | (data_name, dataset) :: datasets' =>
      let+ _ := update_data in
      let+ results' := p_model_loop data_name dataset models results in
      p_data_loop datasets' models results'
  end.

(** [execute]: [n_datasets = len(datasets)],
    [n_control = sum([d.n_units for d in datasets.values()])] and the three
    tasks [add_task("Models", total=len(self.models))],
    [add_task("Datasets", total=n_datasets)],
    [add_task("Control Units", total=n_control)]. *)
Definition execute_progress (models : list Model) (dataset_dict : list (string * Dataset))
    (tr : list label) : (Exn + PlaceboTestResult Result) * (list label * Progress) :=
  let n_datasets := length dataset_dict in
  let n_control := list_sum (map (fun p => n_units (snd p)) dataset_dict) in
  let progress :=
    {| model_task := {| completed := 0; total := length models |};
       data_task := {| completed := 0; total := n_datasets |};
       unit_task := {| completed := 0; total := n_control |} |} in
  (let+ results := p_data_loop dataset_dict models [] in
   pret {| effects := results |}) (tr, progress).

End ExecuteProgress.

End PlaceboProgress.

(* ------------------------------------------------------------------ *)
(** ** [PlaceboTestResult._model_to_df] and [to_df]                      *)

(** Errors of [to_df]: [pd.concat([])] raises on an empty result, and
    [PlaceboSchema.validate] raises a schema error. *)
Inductive df_error := ConcatEmpty | SchemaError.

(** *** Exact arithmetic

    The numpy and scipy calls computed over the reals.  There is no NaN
    here, so the schema's non-null checks are not represented. *)
Module AggExact.
Local Open Scope R_scope.

(** [np.add.reduce]: a left-to-right sum (its pairwise grouping is
    irrelevant in exact arithmetic). *)
Definition np_sum (xs : list R) : R := fold_left Rplus xs 0.

(** [np.mean(a) = np.add.reduce(a) / len(a)] *)
Definition np_mean (a : list R) : R := np_sum a / INR (length a).

(** [np.var(a, ddof)]: [x = a - mean; x = x * x; sum(x) / max(n - ddof, 0)]. *)
Definition np_var (a : list R) (ddof : nat) : R :=
  let arrmean := np_mean a in
  let x := map (fun e => (e - arrmean) * (e - arrmean)) a in
  np_sum x / INR (length a - ddof).

Definition np_std (a : list R) (ddof : nat) : R := sqrt (np_var a ddof).

Section TTest.

(** [scipy.stats.t(df).sf]: survival function of Student's t distribution
    with [df] degrees of freedom. *)
Variable t_sf : R -> R -> R.

(** [scipy.stats.ttest_1samp(a, popmean, alternative="two-sided").pvalue] *)
Definition ttest_1samp_pvalue (a : list R) (popmean : R) : R :=
  let n := length a in
  let df := INR (n - 1) in
  let d := np_mean a - popmean in
  let v := np_var a 1 in
  let denom := sqrt (v / INR n) in
  let t := d / denom in
  2 * t_sf (Rabs t) df.

Record Row := {
  Model : string;
  Dataset : string;
  Effect : R;
  Standard_Deviation : R;
  Standard_Error : R;
  p_value : R
}.

Variable Result : Type.
(** [e.effect.percentage().value] *)
Variable percentage : Result -> R.

Definition _model_to_df (model_name dataset_name : string) (effects : list Result) : Row :=
  let _effects := map percentage effects in
  let _n_effects := length _effects in
  let expected_effect := np_mean _effects in
  let stddev_effect := np_std _effects 0 in
  let std_error := stddev_effect / sqrt (INR _n_effects) in
  let p_value := ttest_1samp_pvalue _effects 0 in
  {| Model := model_name; Dataset := dataset_name; Effect := expected_effect;
     Standard_Deviation := stddev_effect; Standard_Error := std_error;
     p_value := p_value |}.

(** [Check.greater_than(0.0)] *)
Definition greater_than_0 (x : R) : bool := if Rlt_dec 0 x then true else false.

(** [PlaceboSchema.validate]: the checks on the two spread columns. *)
Definition PlaceboSchema_valid (df : list Row) : bool :=
  forallb (fun r => greater_than_0 (Standard_Deviation r) &&
                    greater_than_0 (Standard_Error r)) df.

Definition to_df (effects : list (key * list Result)) : df_error + list Row :=
  let dfs := map (fun '((model, dataset), effect) => _model_to_df model dataset effect) effects in
  match dfs with
  | [] => inl ConcatEmpty
  | _ => if PlaceboSchema_valid dfs then inr dfs else inl SchemaError
  end.

End TTest.

(** The statistics as the specification words them, for comparison. *)
Definition average (xs : list R) : R := fold_right Rplus 0 xs / INR (length xs).

Definition sum_sq_dev (xs : list R) : R :=
  fold_right Rplus 0 (map (fun e => (e - average xs) ^ 2) xs).

Definition population_stddev (xs : list R) : R :=
  sqrt (sum_sq_dev xs / INR (length xs)).

Definition sample_stddev (xs : list R) : R :=
  sqrt (sum_sq_dev xs / INR (length xs - 1)).

(** Two-sided one-sample t-test of "mean = mu0": [t = (avg - mu0) / (s / sqrt n)]
    with the sample standard deviation [s], and [p = 2 * sf(|t|; n - 1)]. *)
Definition t_test_two_sided (t_sf : R -> R -> R) (xs : list R) (mu0 : R) : R :=
  let t := (average xs - mu0) / (sample_stddev xs / sqrt (INR (length xs))) in
  2 * t_sf (Rabs t) (INR (length xs - 1)).

End AggExact.

(** *** Binary64 arithmetic

    The same computation in IEEE-754 double precision, the arithmetic numpy
    uses on the Python floats of [_effects]. *)
Module AggFloat.
Import PrimFloat.
Local Open Scope float_scope.

Definition of_nat (n : nat) : float := of_uint63 (Uint63.of_Z (Z.of_nat n)).

(** numpy's [pairwise_sum] for a contiguous array: below 8 elements a
    running sum from [-0.0]; up to 128 elements eight interleaved
    accumulators, combined pairwise, then the tail; above, the two halves
    (the first one a multiple of 8 long) summed recursively. *)
Fixpoint acc8 (fuel : nat) (r : list float) (rest : list float) : list float :=
  match fuel with
  | O => r
  | S fuel' =>
      match rest with
      | [] => r
      | _ => acc8 fuel' (map (fun '(x, y) => x + y) (combine r (firstn 8 rest)))
                         (skipn 8 rest)
      end
  end.

Fixpoint pairwise_sum_fuel (fuel : nat) (a : list float) : float :=
  match fuel with
  | O => neg_zero
  | S fuel' =>
      let n := length a in
      if Nat.ltb n 8 then fold_left add a neg_zero
      else if Nat.leb n 128 then
        let nb := (n - n mod 8)%nat in
        let r := acc8 nb (firstn 8 a) (skipn 8 (firstn nb a)) in
        let rj j := nth j r zero in
        let res := ((rj 0%nat + rj 1%nat) + (rj 2%nat + rj 3%nat)) +
                   ((rj 4%nat + rj 5%nat) + (rj 6%nat + rj 7%nat)) in
        fold_left add (skipn nb a) res
      else
        let n2 := (n / 2)%nat in
        let n2 := (n2 - n2 mod 8)%nat in
        pairwise_sum_fuel fuel' (firstn n2 a) + pairwise_sum_fuel fuel' (skipn n2 a)
  end.

Definition pairwise_sum (a : list float) : float := pairwise_sum_fuel (length a) a.

(** [np.add.reduce]: the output starts at the identity of [np.add] and the
    array is added with [pairwise_sum]. *)
Definition np_sum (a : list float) : float := zero + pairwise_sum a.

Definition np_mean (a : list float) : float := np_sum a / of_nat (length a).

Definition np_var (a : list float) (ddof : nat) : float :=
  let arrmean := np_mean a in
  let x := map (fun e => e - arrmean) a in
  let x := map (fun e => e * e) x in
  np_sum x / of_nat (length a - ddof)%nat.

Definition np_std (a : list float) (ddof : nat) : float := sqrt (np_var a ddof).

(** The first three statistics of [_model_to_df] (the p-value needs the
    Student-t survival function and is added below). *)
Definition summary_stats (_effects : list float) : float * float * float :=
  let _n_effects := length _effects in
  let expected_effect := np_mean _effects in
  let stddev_effect := np_std _effects 0 in
  let std_error := stddev_effect / sqrt (of_nat _n_effects) in
  (expected_effect, stddev_effect, std_error).

Section Row.

(** [scipy.stats.t(df).sf] in double precision. *)
Variable t_sf : float -> float -> float.

Definition ttest_1samp_pvalue (a : list float) (popmean : float) : float :=
  let n := length a in
  let df := of_nat (n - 1)%nat in
  let d := np_mean a - popmean in
  let v := np_var a 1 in
  let denom := sqrt (v / of_nat n) in
  let t := d / denom in
  2 * t_sf (abs t) df.

Record Row := {
  Model : string;
  Dataset : string;
  Effect : float;
  Standard_Deviation : float;
  Standard_Error : float;
  p_value : float
}.

Variable Result : Type.
Variable percentage : Result -> float.

Definition _model_to_df (model_name dataset_name : string) (effects : list Result) : Row :=
  let _effects := map percentage effects in
  let '(expected_effect, stddev_effect, std_error) := summary_stats _effects in
  let p_value := ttest_1samp_pvalue _effects 0 in
  {| Model := model_name; Dataset := dataset_name; Effect := expected_effect;
     Standard_Deviation := stddev_effect; Standard_Error := std_error;
     p_value := p_value |}.

(** [Check.greater_than(0.0)] on a float column (false on NaN). *)
Definition greater_than_0 (x : float) : bool := 0 <? x.

(** [PlaceboSchema.validate]: the float columns are not nullable (no NaN)
    and the two spread columns are checked to be greater than 0. *)
Definition PlaceboSchema_valid (df : list Row) : bool :=
  forallb (fun r =>
    negb (is_nan (Effect r)) && negb (is_nan (p_value r)) &&
    greater_than_0 (Standard_Deviation r) && greater_than_0 (Standard_Error r)) df.

Definition to_df (effects : list (key * list Result)) : df_error + list Row :=
  let dfs := map (fun '((model, dataset), effect) => _model_to_df model dataset effect) effects in
  match dfs with
  | [] => inl ConcatEmpty
  | _ => if PlaceboSchema_valid dfs then inr dfs else inl SchemaError
  end.

End Row.

End AggFloat.

(* ------------------------------------------------------------------ *)
(** ** Parameters and transforms (modelled from the specification)      *)

(** Modelled from the spec: [Parameter], [Periodic], [Trend] and the
    Dataset slots (sections 3 and 4.1-4.3); every definition of this module
    follows the formulas written there. *)
Module Transforms.

(** Modelled from the spec: the arithmetic a transform computes with, so
    the same transform can be read over the reals and over binary64. *)
Class Num (F : Type) := {
  num_zero : F;
  num_one : F;
  num_add : F -> F -> F;
  num_mul : F -> F -> F;
  num_of_nat : nat -> F
}.

Class Trig (F : Type) := {
  trig_div : F -> F -> F;
  trig_sin : F -> F;
  trig_two_pi : F
}.

#[global] Instance Num_R : Num R := {
  num_zero := 0%R; num_one := 1%R; num_add := Rplus; num_mul := Rmult; num_of_nat := INR
}.

#[global] Instance Trig_R : Trig R := {
  trig_div := Rdiv; trig_sin := sin; trig_two_pi := (2 * PI)%R
}.

#[global] Instance Num_float : Num PrimFloat.float := {
  num_zero := PrimFloat.zero; num_one := PrimFloat.one; num_add := PrimFloat.add;
  num_mul := PrimFloat.mul; num_of_nat := AggFloat.of_nat
}.

(** Modelled from the spec (section 7): the errors a transform raises. *)
Inductive TransformError :=
  | InvalidConfiguration
  | ShapeMismatch.

(** Propagation of a transform error, as a raised exception propagates. *)
Definition bind_t {A B : Type} (m : TransformError + A) (k : A -> TransformError + B)
  : TransformError + B :=
  match m with inl e => inl e | inr a => k a end.

Local Notation "'let*' x ':=' m 'in' k" := (bind_t m (fun x => k))
  (at level 200, x name, m at level 100, k at level 200).

Section Defs.
Context {F : Type} `{Num F}.

(** Modelled from the spec: a [Parameter] (here [Param], the keyword being
    taken) is a fixed scalar or a per-unit value; the seeded draw of a
    unit-varying one is the function giving the value of unit [j]. *)
Inductive Param :=
  | Fixed (v : F)
  | Varying (draw : nat -> F).

(** Modelled from the spec: the values [resolve(n_units)] returns, one per
    unit. *)
Definition resolve_values (p : Param) (n_units : nat) : list F :=
  map (fun j => match p with Fixed v => v | Varying draw => draw j end) (seq 0 n_units).

(** Modelled from the spec: [resolve(n_units)] fails with
    [InvalidConfiguration] when [n_units <= 0]. *)
Definition resolve (p : Param) (n_units : nat) : TransformError + list F :=
  if Nat.eqb n_units 0 then inl InvalidConfiguration else inr (resolve_values p n_units).

(** Modelled from the spec: a matrix is a list of time rows, one column per
    unit. *)
Definition n_units (rows : list (list F)) : nat :=
  match rows with [] => 0 | r :: _ => length r end.

Fixpoint map_cols (g : nat -> F -> F) (j : nat) (row : list F) : list F :=
  match row with
  | [] => []
  | x :: row' => g j x :: map_cols g (S j) row'
  end.

Fixpoint map_rows (f : nat -> list F -> list F) (t : nat) (rows : list (list F))
  : list (list F) :=
  match rows with
  | [] => []
  | r :: rows' => f t r :: map_rows f (S t) rows'
  end.

(** Modelled from the spec: [value[t] += delta(t, unit)] on every entry. *)
Definition deform (delta : nat -> nat -> F) (rows : list (list F)) : list (list F) :=
  map_rows (fun t row => map_cols (fun j x => num_add x (delta t j)) 0 row) 0 rows.

(** Modelled from the spec: the four slots (pre/post period, control/treated);
    the full-span matrices are the pre slot followed by the post slot. *)
Record Dataset := {
  Xtr : list (list F);
  Xte : list (list F);
  ytr : list (list F);
  yte : list (list F)
}.

(** Modelled from the spec: the full-span matrices. *)
Definition control_units (d : Dataset) : list (list F) := Xtr d ++ Xte d.
Definition treated_units (d : Dataset) : list (list F) := ytr d ++ yte d.

(** Modelled from the spec: the invariants of a Dataset (rows of equal
    width per group, at least one pre and one post sample, at least one
    treated unit). *)
Definition dataset_ok (d : Dataset) : bool :=
  let nc := n_units (Xtr d) in
  let nt := n_units (ytr d) in
  (1 <=? length (Xtr d)) && (1 <=? length (Xte d)) &&
  (length (Xtr d) =? length (ytr d)) && (length (Xte d) =? length (yte d)) &&
  (1 <=? nt) &&
  forallb (fun r => length r =? nc) (control_units d) &&
  forallb (fun r => length r =? nt) (treated_units d).

(** Modelled from the spec: the transformed full-span control and treated
    matrices split again at [t0]. *)
Definition rebuild (d : Dataset) (c t : list (list F)) : Dataset :=
  let t0 := length (Xtr d) in
  {| Xtr := firstn t0 c; Xte := skipn t0 c; ytr := firstn t0 t; yte := skipn t0 t |}.

(** Modelled from the spec: a transform checks the Dataset's shapes
    ([ShapeMismatch] otherwise), deforms the full-span control matrix and
    then the treated one (each with parameters resolved against its own
    unit count, so either may fail) and splits them again at [t0]. *)
Definition apply_transform (M : list (list F) -> TransformError + list (list F))
    (d : Dataset) : TransformError + Dataset :=
  if negb (dataset_ok d) then inl ShapeMismatch else
  let* c := M (control_units d) in
  let* t := M (treated_units d) in
  inr (rebuild d c t).

Definition shape (d : Dataset) : list nat * list nat * list nat * list nat :=
  (map (@length F) (Xtr d), map (@length F) (Xte d),
   map (@length F) (ytr d), map (@length F) (yte d)).

(** The value of unit [j] at the final time step. *)
Definition final_value (rows : list (list F)) (j : nat) : F :=
  nth j (last rows []) num_zero.

Fixpoint pow_F (x : F) (k : nat) : F :=
  match k with O => num_one | S k' => num_mul x (pow_F x k') end.

(** Modelled from the spec (Trend): [value[t] += intercept + coefficient * t^degree]. *)
Definition trend_delta (degree : nat) (cs is : list F) (t j : nat) : F :=
  num_add (nth j is num_zero) (num_mul (nth j cs num_zero) (pow_F (num_of_nat t) degree)).

(** Modelled from the spec: parameters resolved against the unit count. *)
Definition trend_matrix (degree : nat) (coefficient intercept : Param)
    (rows : list (list F)) : TransformError + list (list F) :=
  let n := n_units rows in
  let* cs := resolve coefficient n in
  let* is := resolve intercept n in
  inr (deform (trend_delta degree cs is) rows).

(** Modelled from the spec: the degree is a positive integer, a
    non-positive one is an [InvalidConfiguration]. *)
Definition Trend (degree : nat) (coefficient intercept : Param) (d : Dataset)
  : TransformError + Dataset :=
  if Nat.eqb degree 0 then inl InvalidConfiguration
  else apply_transform (trend_matrix degree coefficient intercept) d.

Section Periodic.
Context `{Trig F}.

(** Modelled from the spec (Periodic):
    [value[t] += offset + amplitude * sin(2 pi frequency t / T + shift)]
    with [T] the series length. *)
Definition periodic_delta (T : nat) (amps freqs shifts offsets : list F) (t j : nat) : F :=
  num_add (nth j offsets num_zero)
    (num_mul (nth j amps num_zero)
       (trig_sin (num_add
          (trig_div (num_mul (num_mul trig_two_pi (nth j freqs num_zero)) (num_of_nat t))
                    (num_of_nat T))
          (nth j shifts num_zero)))).

(** Modelled from the spec: parameters resolved against the unit count,
    [T] the series length. *)
Definition periodic_matrix (amplitude frequency shift offset : Param)
    (rows : list (list F)) : TransformError + list (list F) :=
  let n := n_units rows in
  let* amps := resolve amplitude n in
  let* freqs := resolve frequency n in
  let* shifts := resolve shift n in
  let* offsets := resolve offset n in
  inr (deform (periodic_delta (length rows) amps freqs shifts offsets) rows).

Definition Periodic (amplitude frequency shift offset : Param) (d : Dataset)
  : TransformError + Dataset :=
  apply_transform (periodic_matrix amplitude frequency shift offset) d.

End Periodic.

End Defs.

Arguments Param F : clear implicits.
Arguments Dataset F : clear implicits.

(** A column of a matrix: the series of unit [j]. *)
Definition column (j : nat) (rows : list (list R)) : list R :=
  map (fun row => nth j row 0%R) rows.

Fixpoint sumR (n : nat) (g : nat -> R) : R :=
  match n with O => 0%R | S n' => (sumR n' g + g n')%R end.

(** Discrete Fourier transform as [numpy.fft.fft] defines it:
    [X_k = sum_t x_t exp(-2 pi i k t / N)], split in real and imaginary parts. *)
Definition dft_re (xs : list R) (k : nat) : R :=
  let N := length xs in
  sumR N (fun t => nth t xs 0 * cos (2 * PI * INR k * INR t / INR N))%R.

Definition dft_im (xs : list R) (k : nat) : R :=
  let N := length xs in
  (- sumR N (fun t => nth t xs 0 * sin (2 * PI * INR k * INR t / INR N)))%R.

Definition dft_abs (xs : list R) (k : nat) : R :=
  sqrt (dft_re xs k ^ 2 + dft_im xs k ^ 2)%R.

(** Binary64 finiteness of every entry of a dataset. *)
Definition all_finite (d : Dataset PrimFloat.float) : bool :=
  forallb (forallb PrimFloat.is_finite)
    (Xtr d ++ Xte d ++ ytr d ++ yte d).

Section Binary64.
Import PrimFloat.

(** Modelled from the spec: [Periodic] in binary64, [np.sin] being the
    sine routine [sin_f] of the C library and [2 pi] being [2 * np.pi]. *)
Definition Trig_float (sin_f : float -> float) : Trig float := {|
  trig_div := PrimFloat.div; trig_sin := sin_f; trig_two_pi := (2 * 3.141592653589793)%float
|}.

(** The correctly rounded sine (what [math.sin] and [np.sin] return) at the
    binary64 angles [2 * np.pi * 1 * t / 6], [t = 0 .. 5]. *)
Definition sin_samples : list (float * float) :=
  [(0, 0); (1.0471975511965976, 0.8660254037844386);
   (2.0943951023931953, 0.8660254037844387); (3.141592653589793, 1.2246467991473532e-16);
   (4.1887902047863905, -0.8660254037844384); (5.235987755982989, -0.8660254037844386)]%float.

Definition sin_agrees (sin_f : float -> float) : Prop :=
  Forall (fun '(x, y) => sin_f x = y) sin_samples.

(** A sine routine given by the table above (0 elsewhere). *)
Definition sin_table (x : float) : float :=
  match find (fun '(a, _) => PrimFloat.eqb a x) sin_samples with
  | Some (_, y) => y
  | None => 0%float
  end.

(** The real number a finite binary64 value stands for, [+- m * 2^e]
    (infinities and NaN, which have none, are sent to 0). *)
Definition float_value (x : float) : R :=
  match FloatOps.Prim2SF x with
  | SpecFloat.S754_finite s m e => ((if s then -1 else 1) * IZR (Zpos m) * powerRZ 2 e)%R
  | _ => 0%R
  end.

End Binary64.

End Transforms.

(* ================================================================== *)
(** * Proofs                                                           *)
(* ================================================================== *)

Module PyDictFacts.

Lemma key_eqb_spec k k' : key_eqb k k' = true <-> k = k'.
Proof.
  destruct k as [a b], k' as [c d]; unfold key_eqb; simpl.
  rewrite andb_true_iff, !String.eqb_eq. split.
  - intros [-> ->]; reflexivity.
  - intros H; inversion H; auto.
Qed.

Lemma key_eqb_refl k : key_eqb k k = true.
Proof. apply key_eqb_spec; reflexivity. Qed.

Lemma key_eqb_false k k' : key_eqb k k' = false <-> k <> k'.
Proof.
  rewrite <- key_eqb_spec. destruct (key_eqb k k'); split; congruence.
Qed.

Lemma key_eq_dec (k k' : key) : {k = k'} + {k <> k'}.
Proof. decide equality; apply string_dec. Qed.

Lemma dict_set_length_in {V} (d : list (key * V)) k v :
  In k (map fst d) -> length (dict_set d k v) = length d.
Proof.
  induction d as [|[k' v'] d IH]; simpl; [tauto|].
  intros Hin. destruct (key_eqb k k') eqn:E; simpl; [reflexivity|].
  apply key_eqb_false in E. rewrite IH; [reflexivity|].
  destruct Hin as [->|Hin]; [congruence | exact Hin].
Qed.

Lemma dict_set_length_le {V} (d : list (key * V)) k v :
  length (dict_set d k v) <= S (length d).
Proof.
  induction d as [|[k' v'] d IH]; simpl; [lia|].
  destruct (key_eqb k k'); simpl; lia.
Qed.

Lemma dict_set_length_notin {V} (d : list (key * V)) k v :
  ~ In k (map fst d) -> length (dict_set d k v) = S (length d).
Proof.
  induction d as [|[k' v'] d IH]; simpl; [reflexivity|].
  intros Hin. destruct (key_eqb k k') eqn:E.
  - apply key_eqb_spec in E. exfalso; auto.
  - simpl. rewrite IH; auto.
Qed.

Lemma dict_set_keys {V} (d : list (key * V)) k v k' :
  In k' (map fst (dict_set d k v)) <-> k' = k \/ In k' (map fst d).
Proof.
  induction d as [|[k0 v0] d IH]; simpl.
  - split; intros [->|[]]; auto.
  - destruct (key_eqb k k0) eqn:E; simpl.
    + apply key_eqb_spec in E; subst. intuition congruence.
    + rewrite IH. intuition congruence.
Qed.

Lemma dict_get_set {V} (d : list (key * V)) k v k' :
  dict_get (dict_set d k v) k' = if key_eqb k' k then Some v else dict_get d k'.
Proof.
  induction d as [|[k0 v0] d IH]; simpl.
  - destruct (key_eqb k' k); reflexivity.
  - destruct (key_eqb k k0) eqn:E; simpl.
    + apply key_eqb_spec in E; subst. destruct (key_eqb k' k0); reflexivity.
    + rewrite IH. destruct (key_eqb k' k0) eqn:E1, (key_eqb k' k) eqn:E2; auto.
      apply key_eqb_spec in E1, E2; subst. rewrite key_eqb_refl in E. discriminate.
Qed.

Lemma set_all_app {V} (d : list (key * V)) kvs1 kvs2 :
  set_all d (kvs1 ++ kvs2) = set_all (set_all d kvs1) kvs2.
Proof.
  revert d; induction kvs1 as [|[k v] kvs1 IH]; intros d; simpl; auto.
Qed.

Lemma get_set_all {V} (d : list (key * V)) kvs k :
  dict_get (set_all d kvs) k =
  match last_assoc k kvs with Some v => Some v | None => dict_get d k end.
Proof.
  revert d; induction kvs as [|[k' v] kvs IH]; intros d; simpl; [reflexivity|].
  rewrite IH, dict_get_set. destruct (last_assoc k kvs); [reflexivity|].
  destruct (key_eqb k k'); reflexivity.
Qed.

Lemma last_assoc_none {V} (kvs : list (key * V)) k :
  ~ In k (map fst kvs) -> last_assoc k kvs = None.
Proof.
  induction kvs as [|[k' v] kvs IH]; simpl; [reflexivity|].
  intros Hn. rewrite IH by tauto.
  destruct (key_eqb k k') eqn:E; [apply key_eqb_spec in E; subst; tauto | reflexivity].
Qed.

Lemma last_assoc_nodup {V} (kvs : list (key * V)) k v :
  NoDup (map fst kvs) -> In (k, v) kvs -> last_assoc k kvs = Some v.
Proof.
  induction kvs as [|[k' v'] kvs IH]; simpl; [tauto|].
  intros Hnd Hin. inversion Hnd as [|? ? Hnotin Hnd']; subst.
  destruct Hin as [Heq|Hin].
  - inversion Heq; subst. rewrite last_assoc_none by exact Hnotin.
    rewrite key_eqb_refl. reflexivity.
  - rewrite IH; auto.
Qed.

Lemma set_all_length_le {V} (d : list (key * V)) kvs :
  length (set_all d kvs) <= length d + length kvs.
Proof.
  revert d; induction kvs as [|[k v] kvs IH]; intros d; simpl; [lia|].
  specialize (IH (dict_set d k v)). pose proof (dict_set_length_le d k v). lia.
Qed.

Lemma not_NoDup_cons {A} (dec : forall x y : A, {x = y} + {x <> y}) (a : A) l :
  ~ NoDup (a :: l) -> In a l \/ ~ NoDup l.
Proof.
  intros H. destruct (in_dec dec a l) as [Hin|Hin]; [left; exact Hin|].
  right; intros Hnd; apply H; constructor; assumption.
Qed.

(** Writing a key that is already present, or writing the same key twice,
    leaves fewer entries than assignments. *)
Lemma set_all_length_lt {V} (d : list (key * V)) kvs :
  (exists k, In k (map fst kvs) /\ In k (map fst d)) \/ ~ NoDup (map fst kvs) ->
  length (set_all d kvs) < length d + length kvs.
Proof.
  revert d; induction kvs as [|[k v] kvs IH]; intros d Hc; simpl in *.
  - destruct Hc as [[k [[] _]] | Hc]. exfalso; apply Hc; constructor.
  - destruct (in_dec key_eq_dec k (map fst d)) as [Hin|Hin].
    + pose proof (set_all_length_le (dict_set d k v) kvs).
      rewrite dict_set_length_in in H by exact Hin. lia.
    + assert (Hlen := dict_set_length_notin d k v Hin).
      enough (length (set_all (dict_set d k v) kvs) < length (dict_set d k v) + length kvs)
        by lia.
      apply IH.
      destruct Hc as [[k' [[Heq|Hk'] Hd]] | Hc].
      * subst; contradiction.
      * left; exists k'; split; [exact Hk'|]. apply dict_set_keys; tauto.
      * apply not_NoDup_cons in Hc; [|exact key_eq_dec].
        destruct Hc as [Hk|Hc]; [left | right; exact Hc].
        exists k; split; [exact Hk|]. apply dict_set_keys; tauto.
Qed.

Lemma set_all_length_eq {V} (d : list (key * V)) kvs :
  NoDup (map fst kvs) -> (forall k, In k (map fst kvs) -> ~ In k (map fst d)) ->
  length (set_all d kvs) = length d + length kvs.
Proof.
  revert d; induction kvs as [|[k v] kvs IH]; intros d Hnd Hfresh; simpl in *; [lia|].
  inversion Hnd as [|? ? Hnotin Hnd']; subst.
  rewrite IH; [rewrite dict_set_length_notin; [lia|] | exact Hnd' |].
  - apply Hfresh; left; reflexivity.
  - intros k' Hk' Hd. apply dict_set_keys in Hd as [->|Hd]; [contradiction|].
    apply (Hfresh k'); tauto.
Qed.

End PyDictFacts.
Import PyDictFacts.

Module PlaceboFacts.
Import Placebo.

Lemma nodup_map_inj {A B} (f : A -> B) (l : list A) :
  (forall x y, f x = f y -> x = y) -> NoDup l -> NoDup (map f l).
Proof.
  intros Hf Hnd. induction Hnd as [|a l Hnotin Hnd IH]; simpl; constructor; auto.
  intros Hin. apply in_map_iff in Hin as [y [Hy Hin]].
  apply Hf in Hy; subst; contradiction.
Qed.

Lemma nodup_app_disjoint {A} (l1 l2 : list A) x :
  NoDup (l1 ++ l2) -> In x l1 -> In x l2 -> False.
Proof.
  induction l1 as [|a l1 IH]; simpl; [tauto|].
  intros Hnd [->|Hin] Hin2; inversion Hnd as [|? ? Hnotin Hnd']; subst.
  - apply Hnotin, in_or_app; right; exact Hin2.
  - exact (IH Hnd' Hin Hin2).
Qed.

(** If every [F x] contains [h x], distinct elements of [flat_map F l]
    give distinct [h x]. *)
Lemma nodup_flat_map_select {A B} (F : A -> list B) (h : A -> B) (l : list A) :
  (forall x, In (h x) (F x)) -> NoDup (flat_map F l) -> NoDup (map h l).
Proof.
  intros Hh. induction l as [|a l IH]; simpl; intros Hnd; constructor.
  - intros Hin. apply in_map_iff in Hin as [y [Hy Hyl]].
    apply (nodup_app_disjoint (F a) (flat_map F l) (h a) Hnd (Hh a)).
    apply in_flat_map. exists y; split; [exact Hyl|]. rewrite <- Hy; apply Hh.
  - apply IH. exact (NoDup_app_remove_l _ _ Hnd).
Qed.


Section Facts.
Context {Dataset Result Exn : Type}.
Variable n_units : Dataset -> nat.
Variable tpd : Dataset -> nat -> Dataset.

Local Abbreviation Model := (AZCausalWrapper Dataset Result Exn).
Local Abbreviation M := (M Exn).
Local Abbreviation call_item := (call_item Dataset Result Exn).
Local Abbreviation outcome := (outcome Dataset Result Exn tpd).
Local Abbreviation first_error := (first_error Dataset Result Exn tpd).
Local Abbreviation performed := (performed Dataset Result Exn tpd).
Local Abbreviation Runs := (Runs Dataset Result Exn tpd).
Local Abbreviation invoke := (invoke Dataset Result Exn tpd).
Local Abbreviation unit_loop := (unit_loop Dataset Result Exn tpd).
Local Abbreviation model_loop := (model_loop Dataset Result Exn n_units tpd).
Local Abbreviation data_loop := (data_loop Dataset Result Exn n_units tpd).
Local Abbreviation execute := (execute Dataset Result Exn n_units tpd).
Local Abbreviation model_calls := (model_calls Dataset Result Exn n_units).
Local Abbreviation calls := (calls Dataset Result Exn n_units).

Lemma first_error_app (cs cs' : list call_item) :
  first_error (cs ++ cs') =
  match first_error cs with Some e => Some e | None => first_error cs' end.
Proof.
  induction cs as [|c cs IH]; simpl; [reflexivity|].
  destruct (outcome c); [reflexivity | exact IH].
Qed.

Lemma performed_app (cs cs' : list call_item) :
  performed (cs ++ cs') =
  match first_error cs with
  | Some _ => performed cs
  | None => performed cs ++ performed cs'
  end.
Proof.
  induction cs as [|c cs IH]; simpl; [reflexivity|].
  destruct (outcome c); [reflexivity|].
  rewrite IH. destruct (first_error cs); reflexivity.
Qed.

Lemma Runs_ret {A} (a : A) : Runs (ret a) [].
Proof. intros tr; simpl. rewrite app_nil_r. split; reflexivity. Qed.

Lemma Runs_bind {A B} (p : M A) (f : A -> M B) cs cs' :
  Runs p cs -> (forall a, Runs (f a) cs') -> Runs (bind p f) (cs ++ cs').
Proof.
  intros Hp Hf tr. unfold bind.
  destruct (Hp tr) as [Htr Hout].
  destruct (p tr) as [[e|a] tr'] eqn:E; simpl in *.
  - rewrite performed_app, first_error_app, Hout. split; [exact Htr | reflexivity].
  - subst tr'. destruct (Hf a (tr ++ map (label_of Dataset Result Exn) (performed cs)))
      as [Htr' Hout'].
    rewrite performed_app, first_error_app, Hout, Htr', map_app, app_assoc.
    split; [reflexivity | exact Hout'].
Qed.

Lemma Runs_invoke m dn d i : Runs (invoke m dn d i) [(m, dn, d, i)].
Proof.
  intros tr; simpl. destruct (model_call _ _ _ m (tpd d i)); split; reflexivity.
Qed.

Lemma Runs_unit_loop m dn d is acc :
  Runs (unit_loop m dn d is acc) (unit_calls Dataset Result Exn m dn d is).
Proof.
  revert acc; induction is as [|i is IH]; intros acc; simpl.
  - apply Runs_ret.
  - change ((m, dn, d, i) :: unit_calls Dataset Result Exn m dn d is)
      with ([(m, dn, d, i)] ++ unit_calls Dataset Result Exn m dn d is).
    apply Runs_bind; [apply Runs_invoke | intros a; apply IH].
Qed.

Lemma Runs_model_loop dn d ms res :
  Runs (model_loop dn d ms res) (model_calls dn d ms).
Proof.
  revert res; induction ms as [|m ms IH]; intros res; simpl.
  - apply Runs_ret.
  - apply Runs_bind; [apply Runs_unit_loop | intros a; apply IH].
Qed.

Lemma Runs_data_loop ds ms res : Runs (data_loop ds ms res) (calls ms ds).
Proof.
  revert res; induction ds as [|[dn d] ds IH]; intros res; simpl.
  - apply Runs_ret.
  - apply Runs_bind; [apply Runs_model_loop | intros a; apply IH].
Qed.

Lemma Runs_execute ms ds : Runs (execute ms ds) (calls ms ds).
Proof.
  unfold Placebo.execute. rewrite <- (app_nil_r (calls ms ds)).
  apply Runs_bind; [apply Runs_data_loop | intros a; apply Runs_ret].
Qed.

(** The first invocation that raises fixes the exception and the prefix of
    invocations performed. *)
Lemma first_failure (cs : list call_item) k c e :
  nth_error cs k = Some c -> outcome c = inl e ->
  (forall j c', j < k -> nth_error cs j = Some c' -> exists r, outcome c' = inr r) ->
  first_error cs = Some e /\ performed cs = firstn (S k) cs.
Proof.
  revert cs; induction k as [|k IH]; intros [|c0 cs] Hk Hc Hpre; try discriminate.
  - simpl in Hk. inversion Hk; subst. simpl. rewrite Hc. auto.
  - simpl in Hk.
    destruct (Hpre 0 c0 ltac:(lia) eq_refl) as [r Hr].
    destruct (IH cs Hk Hc) as [H1 H2].
    { intros j c' Hj Hn. apply (Hpre (S j) c'); [lia | exact Hn]. }
    simpl. rewrite Hr, H1, H2. auto.
Qed.

Local Abbreviation pair_entry_ok := (pair_entry_ok Dataset Result Exn n_units tpd).
Local Abbreviation label_of := (label_of Dataset Result Exn).

(** Results of a loop that did not raise. *)
Lemma unit_loop_inr m dn d is acc tr v tr' :
  unit_loop m dn d is acc tr = (inr v, tr') ->
  map (@inr Exn Result) v =
  map inr acc ++ map (fun i => model_call _ _ _ m (tpd d i)) is.
Proof.
  revert acc tr; induction is as [|i is IH]; intros acc tr H; simpl in *.
  - inversion H; subst. rewrite app_nil_r. reflexivity.
  - unfold bind, Placebo.invoke in H.
    destruct (model_call _ _ _ m (tpd d i)) as [e|r] eqn:E; [discriminate|].
    apply IH in H. rewrite H, map_app, <- app_assoc. reflexivity.
Qed.

Lemma model_loop_inr dn d ms res tr r tr' :
  model_loop dn d ms res tr = (inr r, tr') ->
  exists kvs, Forall2 (fun m kv => pair_entry_ok m dn d kv) ms kvs /\
              r = set_all res kvs.
Proof.
  revert res tr; induction ms as [|m ms IH]; intros res tr H; simpl in *.
  - inversion H; subst. exists []. split; [constructor | reflexivity].
  - unfold bind in H.
    destruct (unit_loop m dn d (seq 0 (n_units d)) [] tr) as [[e|v] tr1] eqn:E;
      [discriminate|].
    apply IH in H as [kvs [HF ->]].
    exists (((_model_name _ _ _ m, dn), v) :: kvs). split; [|reflexivity].
    constructor; [|exact HF].
    split; [reflexivity|]. apply unit_loop_inr in E. exact E.
Qed.

Lemma data_loop_inr ds ms res tr r tr' :
  data_loop ds ms res tr = (inr r, tr') ->
  exists kvss,
    Forall2 (fun p kvs => Forall2 (fun m kv => pair_entry_ok m (fst p) (snd p) kv) ms kvs)
      ds kvss /\
    r = set_all res (concat kvss).
Proof.
  revert res tr; induction ds as [|[dn d] ds IH]; intros res tr H; simpl in *.
  - inversion H; subst. exists []. split; [constructor | reflexivity].
  - unfold bind in H.
    destruct (model_loop dn d ms res tr) as [[e|res1] tr1] eqn:E; [discriminate|].
    apply model_loop_inr in E as [kvs [HF ->]].
    apply IH in H as [kvss [HFs ->]].
    exists (kvs :: kvss). split; [constructor; assumption|].
    simpl. rewrite set_all_app. reflexivity.
Qed.

Lemma execute_inr ms ds tr r tr' :
  execute ms ds tr = (inr r, tr') ->
  exists kvss,
    Forall2 (fun p kvs => Forall2 (fun m kv => pair_entry_ok m (fst p) (snd p) kv) ms kvs)
      ds kvss /\
    effects _ r = set_all [] (concat kvss).
Proof.
  unfold Placebo.execute, bind. intros H.
  destruct (data_loop ds ms [] tr) as [[e|res] tr1] eqn:E; [discriminate|].
  inversion H; subst. apply data_loop_inr in E. exact E.
Qed.

Lemma entries_keys ms ds kvss :
  Forall2 (fun p kvs => Forall2 (fun m kv => pair_entry_ok m (fst p) (snd p) kv) ms kvs)
    ds kvss ->
  map fst (concat kvss) =
  flat_map (fun p => map (fun m => (_model_name _ _ _ m, fst p)) ms) ds.
Proof.
  induction 1 as [|p kvs ds kvss Hp _ IH]; simpl; [reflexivity|].
  rewrite map_app, IH. f_equal.
  clear IH. induction Hp as [|m kv ms kvs [Hk _] _ IH]; simpl; [reflexivity|].
  rewrite Hk, IH. reflexivity.
Qed.

Lemma pairs_length (ms : list Model) (ds : list (string * Dataset)) :
  length (flat_map (fun p => map (fun m => (_model_name _ _ _ m, fst p)) ms) ds) =
  length ms * length ds.
Proof.
  induction ds as [|p ds IH]; simpl; [lia|].
  rewrite length_app, length_map, IH. lia.
Qed.

Lemma pairs_nodup (ms : list Model) (ds : list (string * Dataset)) :
  NoDup (map (_model_name _ _ _) ms) -> NoDup (map fst ds) ->
  NoDup (flat_map (fun p => map (fun m => (_model_name _ _ _ m, fst p)) ms) ds).
Proof.
  intros Hms. induction ds as [|p ds IH]; simpl; intros Hds; [constructor|].
  inversion Hds as [|? ? Hnotin Hds']; subst.
  apply NoDup_app; [| exact (IH Hds') |].
  - replace (map (fun m => (_model_name _ _ _ m, fst p)) ms)
      with (map (fun x => (x, fst p)) (map (_model_name _ _ _) ms))
      by (rewrite map_map; reflexivity).
    apply nodup_map_inj; [|exact Hms].
    intros x y H; inversion H; reflexivity.
  - intros a Ha Hb.
    apply in_map_iff in Ha as [m [<- _]].
    apply in_flat_map in Hb as [q [Hq Hin]].
    apply in_map_iff in Hin as [m' [Heq _]].
    injection Heq as _ Hfst.
    apply Hnotin. rewrite <- Hfst. apply in_map; exact Hq.
Qed.

Lemma Forall2_in_l {A B} (R : A -> B -> Prop) l1 l2 x :
  Forall2 R l1 l2 -> In x l1 -> exists y, In y l2 /\ R x y.
Proof.
  induction 1 as [|a b l1 l2 Hab _ IH]; simpl; [tauto|].
  intros [->|Hin]; [exists b; auto|].
  destruct (IH Hin) as [y [Hy HR]]; exists y; auto.
Qed.

(** C4: a model that raises aborts [execute]: the exception of the first
    raising invocation (in loop order) is the outcome, every invocation up
    to it ran exactly once, none after it ran, and no result is returned. *)
Theorem execute_model_error_propagates ms ds k c e :
  nth_error (calls ms ds) k = Some c ->
  outcome c = inl e ->
  (forall j c', j < k -> nth_error (calls ms ds) j = Some c' ->
                exists r, outcome c' = inr r) ->
  execute ms ds [] = (inl e, map label_of (firstn (S k) (calls ms ds))).
Proof.
  intros Hk Hc Hpre.
  destruct (first_failure _ k c e Hk Hc Hpre) as [Hfe Hperf].
  destruct (Runs_execute ms ds []) as [Htr Hout].
  destruct (execute ms ds []) as [[e'|r] tr] eqn:E; simpl in *.
  - rewrite Hfe in Hout. injection Hout as ->. rewrite Htr, Hperf. reflexivity.
  - rewrite Hfe in Hout. discriminate.
Qed.

(** C1 (amended): with pairwise distinct model names (dataset names are
    the keys of a dict), a run without exceptions stores one list per
    (model, dataset) pair, i.e. [m] lists per dataset, and the list of the
    pair has one result per control unit [i < n_units], in order. *)
Theorem execute_complete_distinct_names ms ds r tr :
  NoDup (map (_model_name _ _ _) ms) ->
  NoDup (map fst ds) ->
  execute ms ds [] = (inr r, tr) ->
  length (effects _ r) = length ms * length ds /\
  forall m dn d, In m ms -> In (dn, d) ds ->
    exists rs, dict_get (effects _ r) (_model_name _ _ _ m, dn) = Some rs /\
               length rs = n_units d /\
               map inr rs = map (fun i => model_call _ _ _ m (tpd d i)) (seq 0 (n_units d)).
Proof.
  intros Hms Hds H. apply execute_inr in H as [kvss [HF ->]].
  assert (Hkeys := entries_keys ms ds kvss HF).
  assert (Hnd : NoDup (map fst (concat kvss)))
    by (rewrite Hkeys; apply pairs_nodup; assumption).
  split.
  - rewrite set_all_length_eq; [|exact Hnd | intros k _ []].
    simpl. rewrite <- (length_map fst), Hkeys. apply pairs_length.
  - intros m dn d Hm Hd.
    destruct (Forall2_in_l _ _ _ _ HF Hd) as [kvs [Hkvs HFm]].
    destruct (Forall2_in_l _ _ _ _ HFm Hm) as [[k rs] [Hkv [Hk Hrs]]].
    simpl in Hk, Hrs. subst k. exists rs. split; [|split].
    + rewrite get_set_all. erewrite last_assoc_nodup; [reflexivity | exact Hnd |].
      apply in_concat. exists kvs; split; assumption.
    + rewrite <- (length_map (@inr Exn Result)), Hrs, length_map, length_seq. reflexivity.
    + exact Hrs.
Qed.

(** C10: keys are (model name, dataset name): when two models share a name
    (and there is a dataset), or two datasets share a name (and there is a
    model), the run stores strictly fewer lists than models x datasets;
    each key holds the list of the last pair written to it. *)
Theorem execute_duplicate_keys_overwrite ms ds r tr :
  (~ NoDup (map (_model_name _ _ _) ms) /\ ds <> [] \/
   ~ NoDup (map fst ds) /\ ms <> []) ->
  execute ms ds [] = (inr r, tr) ->
  length (effects _ r) < length ms * length ds /\
  exists kvss,
    Forall2 (fun p kvs => Forall2 (fun m kv => pair_entry_ok m (fst p) (snd p) kv) ms kvs)
      ds kvss /\
    forall k, dict_get (effects _ r) k = last_assoc k (concat kvss).
Proof.
  intros Hdup H. apply execute_inr in H as [kvss [HF Hr]].
  assert (Hkeys := entries_keys ms ds kvss HF).
  split.
  - rewrite Hr.
    assert (Hlen : length (concat kvss) = length ms * length ds)
      by (rewrite <- (length_map fst), Hkeys; apply pairs_length).
    rewrite <- Hlen. change (length (concat kvss)) with (length (@nil (key * list Result)) + length (concat kvss)).
    apply set_all_length_lt. right. rewrite Hkeys. intros Hnd.
    destruct Hdup as [[Hms Hne] | [Hds Hne]].
    + destruct ds as [|p ds]; [congruence|]. simpl in Hnd.
      apply NoDup_app_remove_r in Hnd. apply Hms.
      rewrite <- (map_map (_model_name _ _ _) (fun x => (x, fst p))) in Hnd.
      exact (NoDup_map_inv _ _ Hnd).
    + destruct ms as [|m0 ms]; [congruence|]. apply Hds.
      apply (nodup_flat_map_select _ (fun p => (_model_name _ _ _ m0, fst p))) in Hnd.
      * rewrite <- (map_map fst (fun x => (_model_name _ _ _ m0, x))) in Hnd.
        exact (NoDup_map_inv _ _ Hnd).
      * intros p; simpl; left; reflexivity.
  - exists kvss. split; [exact HF|]. intros k. rewrite Hr, get_set_all.
    destruct (last_assoc k (concat kvss)); reflexivity.
Qed.

End Facts.
End PlaceboFacts.


Module PlaceboWitnesses.
Import Placebo PlaceboToy PlaceboFacts.

Local Open Scope string_scope.

(** C1: two models that share the name "m", one dataset with one control
    unit: the run stores one list for the dataset, not two. *)
Lemma execute_same_name_models_cex :
  ~ (forall (ms : list Model) (ds : list (string * nat)) r tr,
       NoDup (map fst ds) ->
       toy_execute ms ds [] = (inr r, tr) ->
       forall dn d, In (dn, d) ds ->
         length (filter (fun kv => String.eqb (snd (fst kv)) dn) (effects _ r)) = length ms /\
         Forall (fun kv => length (snd kv) = d)
           (filter (fun kv => String.eqb (snd (fst kv)) dn) (effects _ r))).
Proof.
  intros H.
  destruct (H [echo "m"; echo "m"] [("d", 1)]
              (Build_PlaceboTestResult nat [(("m", "d"), [0])])
              [("m", "d", 0); ("m", "d", 0)]
              ltac:(repeat constructor; simpl; tauto) eq_refl "d" 1
              (or_introl eq_refl)) as [Hlen _].
  discriminate Hlen.
Qed.

Lemma execute_complete_distinct_names_witness :
  NoDup (map (_model_name _ _ _) [echo "a"; echo "b"]) /\
  NoDup (map fst [("d", 2)]) /\
  toy_execute [echo "a"; echo "b"] [("d", 2)] [] =
    (inr (Build_PlaceboTestResult nat [(("a", "d"), [0; 1]); (("b", "d"), [0; 1])]),
     [("a", "d", 0); ("a", "d", 1); ("b", "d", 0); ("b", "d", 1)]) /\
  length [(("a", "d"), [0; 1]); (("b", "d"), [0; 1])] = 2 * 1.
Proof.
  assert (H1 : NoDup (map (_model_name _ _ _) [echo "a"; echo "b"]))
    by (repeat constructor; simpl; intuition discriminate).
  assert (H2 : NoDup (map fst [("d", 2)])) by (repeat constructor; simpl; tauto).
  split; [exact H1|]. split; [exact H2|]. split; [reflexivity|].
  exact (proj1 (execute_complete_distinct_names (fun d => d) (fun _ i => i)
                  [echo "a"; echo "b"] [("d", 2)]
                  (Build_PlaceboTestResult nat [(("a", "d"), [0; 1]); (("b", "d"), [0; 1])])
                  [("a", "d", 0); ("a", "d", 1); ("b", "d", 0); ("b", "d", 1)]
                  H1 H2 eq_refl)).
Defined.

(** C4: "m" raises on unit 1; "n" is never invoked. *)
Lemma execute_model_error_propagates_witness :
  outcome nat nat string (fun _ i => i) (fails_on_one "m", "d", 3, 1) = inl "boom" /\
  toy_execute [fails_on_one "m"; echo "n"] [("d", 3)] [] =
    (inl "boom", [("m", "d", 0); ("m", "d", 1)]).
Proof.
  split; [reflexivity|].
  refine (eq_trans (execute_model_error_propagates (fun d => d) (fun _ i => i)
                      [fails_on_one "m"; echo "n"] [("d", 3)] 1
                      (fails_on_one "m", "d", 3, 1) "boom" eq_refl eq_refl _) _).
  - intros j c' Hj Hn. destruct j as [|j]; [|lia].
    simpl in Hn. injection Hn as <-. exists 0. reflexivity.
  - reflexivity.
Defined.

Lemma execute_duplicate_keys_overwrite_witness :
  ~ NoDup (map (_model_name _ _ _) [echo "m"; echo "m"]) /\
  toy_execute [echo "m"; echo "m"] [("d", 1)] [] =
    (inr (Build_PlaceboTestResult nat [(("m", "d"), [0])]),
     [("m", "d", 0); ("m", "d", 0)]) /\
  length [(("m", "d"), [0])] < 2 * 1.
Proof.
  assert (Hd : ~ NoDup (map (_model_name _ _ _) [echo "m"; echo "m"])).
  { intros Hnd. inversion Hnd as [|? ? Hn _]. apply Hn. left; reflexivity. }
  split; [exact Hd|]. split; [reflexivity|].
  assert (Hne : [("d", 1)] <> @nil (string * nat)) by discriminate.
  exact (proj1 (execute_duplicate_keys_overwrite (fun d => d) (fun _ i => i)
                  [echo "m"; echo "m"] [("d", 1)]
                  (Build_PlaceboTestResult nat [(("m", "d"), [0])])
                  [("m", "d", 0); ("m", "d", 0)]
                  (or_introl (conj Hd Hne)) eq_refl)).
Defined.

End PlaceboWitnesses.

Module PlaceboExtra.
Import Placebo PlaceboFacts.

Lemma first_error_none_performed {Dataset Result Exn} tpd
    (cs : list (call_item Dataset Result Exn)) :
  first_error Dataset Result Exn tpd cs = None -> performed Dataset Result Exn tpd cs = cs.
Proof.
  induction cs as [|c cs IH]; simpl; [reflexivity|].
  destruct (outcome Dataset Result Exn tpd c); [discriminate|].
  intros H. rewrite (IH H). reflexivity.
Qed.

Lemma first_error_none_iff {Dataset Result Exn} tpd
    (cs : list (call_item Dataset Result Exn)) :
  first_error Dataset Result Exn tpd cs = None <->
  Forall (fun c => exists r, outcome Dataset Result Exn tpd c = inr r) cs.
Proof.
  induction cs as [|c cs IH]; simpl.
  - split; [constructor | reflexivity].
  - destruct (outcome Dataset Result Exn tpd c) as [e|r] eqn:E.
    + split; [discriminate|]. intros H. inversion H as [|? ? [r Hr] _]; subst.
      congruence.
    + rewrite IH. split; [intros H; constructor; [exists r; exact E | exact H]|].
      intros H; inversion H; assumption.
Qed.

Lemma calls_length {Dataset Result Exn} (n_units : Dataset -> nat)
    (ms : list (AZCausalWrapper Dataset Result Exn)) ds :
  length (calls Dataset Result Exn n_units ms ds) =
  length ms * list_sum (map (fun p => n_units (snd p)) ds).
Proof.
  induction ds as [|[dn d] ds IH]; simpl; [lia|].
  rewrite length_app, IH. unfold model_calls.
  assert (H : forall ms' : list (AZCausalWrapper Dataset Result Exn),
             length (flat_map (fun m => unit_calls Dataset Result Exn m dn d (seq 0 (n_units d))) ms')
             = length ms' * n_units d).
  { induction ms' as [|m ms' IHm]; simpl; [reflexivity|].
    rewrite length_app, IHm. unfold unit_calls. rewrite length_map, length_seq. lia. }
  rewrite H. lia.
Qed.

(** A dictionary assignment only stores the assigned pair or keeps a stored one. *)
Lemma in_dict_set {V} (d : list (key * V)) k v kv :
  In kv (dict_set d k v) -> In kv d \/ kv = (k, v).
Proof.
  induction d as [|[k' v'] d IH]; simpl.
  - intros [<-|[]]. right; reflexivity.
  - destruct (key_eqb k k') eqn:E; simpl.
    + apply PyDictFacts.key_eqb_spec in E. subst k'.
      intros [<-|H]; [right; reflexivity | left; right; exact H].
    + intros [<-|H]; [left; left; reflexivity|].
      destruct (IH H) as [H'|H']; [left; right; exact H' | right; exact H'].
Qed.

Lemma in_set_all {V} (d : list (key * V)) kvs kv :
  In kv (set_all d kvs) -> In kv d \/ In kv kvs.
Proof.
  revert d; induction kvs as [|[k v] kvs IH]; simpl; intros d H; [left; exact H|].
  destruct (IH _ H) as [H1|H1]; [|right; right; exact H1].
  destruct (in_dict_set _ _ _ _ H1) as [H2|H2]; [left; exact H2 | right; left; auto].
Qed.

Lemma dict_get_in {V} (d : list (key * V)) k v :
  dict_get d k = Some v -> In (k, v) d.
Proof.
  induction d as [|[k' v'] d IH]; simpl; [discriminate|].
  destruct (key_eqb k k') eqn:E.
  - apply PyDictFacts.key_eqb_spec in E. subst k'. intros H; injection H as ->; left; auto.
  - intros H; right; exact (IH H).
Qed.

Lemma last_assoc_in_keys {V} (kvs : list (key * V)) k :
  In k (map fst kvs) -> exists v, last_assoc k kvs = Some v.
Proof.
  induction kvs as [|[k' v'] kvs IH]; simpl; [tauto|].
  intros Hk. destruct (last_assoc k kvs) as [w|] eqn:E; [eauto|].
  destruct Hk as [<-|Hk].
  - rewrite PyDictFacts.key_eqb_refl. eauto.
  - destruct (IH Hk) as [w Hw]; congruence.
Qed.

Lemma dict_set_not_nil {V} (d : list (key * V)) k v : dict_set d k v <> [].
Proof. destruct d as [|[k' v'] d]; simpl; [discriminate|]. destruct (key_eqb k k'); discriminate. Qed.

Lemma set_all_nil_iff {V} (d : list (key * V)) kvs :
  set_all d kvs = [] <-> d = [] /\ kvs = [].
Proof.
  revert d; induction kvs as [|[k v] kvs IH]; simpl; intros d.
  - tauto.
  - rewrite IH. split; [intros [H _]; exfalso; exact (dict_set_not_nil _ _ _ H)|].
    intros [_ H]; discriminate.
Qed.

Lemma Forall2_in_r {A B} (R : A -> B -> Prop) l1 l2 y :
  Forall2 R l1 l2 -> In y l2 -> exists x, In x l1 /\ R x y.
Proof.
  induction 1 as [|a b l1 l2 Hab _ IH]; simpl; [tauto|].
  intros [<-|Hin]; [exists a; auto|].
  destruct (IH Hin) as [x [Hx HR]]; exists x; auto.
Qed.

Lemma nodup_fst_functional {A B} (l : list (A * B)) a b b' :
  NoDup (map fst l) -> In (a, b) l -> In (a, b') l -> b = b'.
Proof.
  induction l as [|[a0 b0] l IH]; simpl; [tauto|].
  intros Hnd. inversion Hnd as [|? ? Hnotin Hnd']; subst.
  intros [H1|H1] [H2|H2].
  - congruence.
  - injection H1 as -> ->. exfalso; apply Hnotin. apply (in_map fst) in H2; exact H2.
  - injection H2 as -> ->. exfalso; apply Hnotin. apply (in_map fst) in H1; exact H1.
  - exact (IH Hnd' H1 H2).
Qed.

Lemma concat_nil_Forall2 {A B C} (R : B -> A -> C -> Prop) (ms : list A) (ds : list B) kvss :
  Forall2 (fun p kvs => Forall2 (R p) ms kvs) ds kvss ->
  concat kvss = [] <-> ms = [] \/ ds = [].
Proof.
  destruct 1 as [|p kvs ds kvss Hp Hrest]; simpl; [tauto|].
  split.
  - intros H. apply app_eq_nil in H as [-> _]. inversion Hp; subst. left; reflexivity.
  - intros [->|H]; [|discriminate]. inversion Hp; subst. simpl.
    clear Hp. induction Hrest as [|p' kvs' ds' kvss' Hp' _ IH]; [reflexivity|].
    inversion Hp'; subst. exact IH.
Qed.

Section Extra.
Context {Dataset Result Exn : Type}.
Variable n_units : Dataset -> nat.
Variable tpd : Dataset -> nat -> Dataset.

Local Abbreviation Model := (AZCausalWrapper Dataset Result Exn).
Local Abbreviation outcome := (outcome Dataset Result Exn tpd).
Local Abbreviation first_error := (first_error Dataset Result Exn tpd).
Local Abbreviation execute := (execute Dataset Result Exn n_units tpd).
Local Abbreviation calls := (calls Dataset Result Exn n_units).
Local Abbreviation label_of := (label_of Dataset Result Exn).
Local Abbreviation pair_entry_ok := (pair_entry_ok Dataset Result Exn n_units tpd).

(** [execute] raises exactly when one of the model invocations of its loops
    raises, and then with the exception of the first one in loop order
    (datasets, then models, then control units): it raises nothing of its
    own. *)
Theorem execute_raises_iff ms ds tr e :
  fst (execute ms ds tr) = inl e <-> first_error (calls ms ds) = Some e.
Proof.
  destruct (Runs_execute n_units tpd ms ds tr) as [_ Hout].
  destruct (fst (execute ms ds tr)) as [e'|r].
  - rewrite Hout. split; congruence.
  - rewrite Hout. split; discriminate.
Qed.

(** [execute] returns a result exactly when every invocation
    [model(dataset.to_placebo_data(i))] returns; the run then invoked every
    model once per control unit of every dataset, in loop order, that is
    [len(models) * sum(d.n_units)] invocations. *)
Theorem execute_success_invokes_all ms ds tr :
  (exists r, fst (execute ms ds tr) = inr r) <->
  Forall (fun c => exists r, outcome c = inr r) (calls ms ds) /\
  snd (execute ms ds tr) = tr ++ map label_of (calls ms ds) /\
  length (map label_of (calls ms ds)) =
    length ms * list_sum (map (fun p => n_units (snd p)) ds).
Proof.
  destruct (Runs_execute n_units tpd ms ds tr) as [Htr Hout].
  rewrite length_map, calls_length.
  destruct (fst (execute ms ds tr)) as [e|r].
  - split; [intros [r H]; discriminate|].
    intros [HF _]. apply (first_error_none_iff tpd) in HF. congruence.
  - split; [|eauto]. intros _.
    rewrite Htr, (first_error_none_performed tpd _ Hout).
    split; [apply first_error_none_iff; exact Hout | split; reflexivity].
Qed.

(** With no model or no dataset, [execute] invokes nothing and returns an
    empty [effects] dict; a run that returns has an empty dict only then. *)
Theorem execute_empty_effects ms ds tr :
  ((ms = [] \/ ds = []) -> execute ms ds tr = (inr {| effects := [] |}, tr)) /\
  (forall r tr', execute ms ds tr = (inr r, tr') -> (effects _ r = [] <-> ms = [] \/ ds = [])).
Proof.
  split.
  - intros Hms. unfold Placebo.execute, bind.
    assert (Hd : data_loop Dataset Result Exn n_units tpd ds ms [] tr = (inr [], tr)).
    { destruct Hms as [->| ->]; [|reflexivity].
      induction ds as [|[dn d] ds IH]; [reflexivity|]. exact IH. }
    rewrite Hd. reflexivity.
  - intros r tr' H. apply execute_inr in H as [kvss [HF ->]].
    rewrite set_all_nil_iff.
    rewrite <- (concat_nil_Forall2 (fun p m kv => pair_entry_ok m (fst p) (snd p) kv)
                  ms ds kvss HF). tauto.
Qed.

End Extra.
End PlaceboExtra.

Module ProgressFacts.
Import Placebo PlaceboProgress.

Section Facts.
Context {Dataset Result Exn : Type}.
Variable n_units : Dataset -> nat.
Variable tpd : Dataset -> nat -> Dataset.

Local Abbreviation Model := (AZCausalWrapper Dataset Result Exn).
Local Abbreviation cm p := (completed (model_task p)).
Local Abbreviation cd p := (completed (data_task p)).
Local Abbreviation cu p := (completed (unit_task p)).
Local Abbreviation tm p := (total (model_task p)).
Local Abbreviation td p := (total (data_task p)).
Local Abbreviation tu p := (total (unit_task p)).

(** Each progress loop runs as the plain loop does, leaves the totals as
    they are and, when it returns, has advanced the counters by its
    iterations. *)
Lemma p_unit_loop_sim m dn d is acc tr p :
  exists p',
    p_unit_loop Dataset Result Exn tpd m dn d is acc (tr, p) =
      (fst (unit_loop Dataset Result Exn tpd m dn d is acc tr),
       (snd (unit_loop Dataset Result Exn tpd m dn d is acc tr), p')) /\
    tm p' = tm p /\ td p' = td p /\ tu p' = tu p /\
    (forall v, fst (unit_loop Dataset Result Exn tpd m dn d is acc tr) = inr v ->
       cm p' = cm p /\ cd p' = cd p /\ cu p' = cu p + length is).
Proof.
  revert acc tr p; induction is as [|i is IH]; intros acc tr p; simpl.
  - exists p. refine (conj eq_refl (conj eq_refl (conj eq_refl (conj eq_refl _)))).
    intros; repeat split; lia.
  - unfold pbind, bind, Placebo.invoke. simpl.
    destruct (model_call _ _ _ m (tpd d i)) as [e|r].
    + eexists. split; [reflexivity|]. simpl.
      refine (conj eq_refl (conj eq_refl (conj eq_refl _))). intros ? ?; discriminate.
    + destruct (IH (acc ++ [r]) (tr ++ [(_model_name _ _ _ m, dn, i)])
                  {| model_task := model_task p; data_task := data_task p;
                     unit_task := advance (unit_task p) |}) as [p' [Hp [H1 [H2 [H3 H4]]]]].
      exists p'. split; [exact Hp|]. simpl in *. refine (conj _ (conj _ (conj _ _))); try congruence.
      intros v Hv; destruct (H4 v Hv) as [? [? ?]]. repeat split; lia.
Qed.

Lemma p_model_loop_sim dn d ms res tr p :
  exists p',
    p_model_loop Dataset Result Exn n_units tpd dn d ms res (tr, p) =
      (fst (model_loop Dataset Result Exn n_units tpd dn d ms res tr),
       (snd (model_loop Dataset Result Exn n_units tpd dn d ms res tr), p')) /\
    tm p' = tm p /\ td p' = td p /\ tu p' = tu p /\
    (forall v, fst (model_loop Dataset Result Exn n_units tpd dn d ms res tr) = inr v ->
       cm p' = cm p + length ms /\ cd p' = cd p /\ cu p' = cu p + length ms * n_units d).
Proof.
  revert res tr p; induction ms as [|m ms IH]; intros res tr p; simpl.
  - exists p. refine (conj eq_refl (conj eq_refl (conj eq_refl (conj eq_refl _)))).
    intros; repeat split; lia.
  - unfold pbind, bind. simpl.
    destruct (p_unit_loop_sim m dn d (seq 0 (n_units d)) [] tr
                {| model_task := advance (model_task p); data_task := data_task p;
                   unit_task := unit_task p |}) as [p1 [Hp1 [H1 [H2 [H3 H4]]]]].
    rewrite Hp1.
    destruct (unit_loop Dataset Result Exn tpd m dn d (seq 0 (n_units d)) [] tr)
      as [[e|v] tr1]; simpl in *.
    + exists p1. split; [reflexivity|]. refine (conj _ (conj _ (conj _ _))); try congruence.
    + destruct (H4 v eq_refl) as [K1 [K2 K3]].
      destruct (IH (dict_set res (_model_name _ _ _ m, dn) v) tr1 p1)
        as [p' [Hp [G1 [G2 [G3 G4]]]]].
      exists p'. split; [exact Hp|]. refine (conj _ (conj _ (conj _ _))); try congruence.
      intros w Hw; destruct (G4 w Hw) as [? [? ?]]. rewrite length_seq in K3.
      repeat split; lia.
Qed.

Lemma p_data_loop_sim ds ms res tr p :
  exists p',
    p_data_loop Dataset Result Exn n_units tpd ds ms res (tr, p) =
      (fst (data_loop Dataset Result Exn n_units tpd ds ms res tr),
       (snd (data_loop Dataset Result Exn n_units tpd ds ms res tr), p')) /\
    tm p' = tm p /\ td p' = td p /\ tu p' = tu p /\
    (forall v, fst (data_loop Dataset Result Exn n_units tpd ds ms res tr) = inr v ->
       cm p' = cm p + length ds * length ms /\ cd p' = cd p + length ds /\
       cu p' = cu p + length ms * list_sum (map (fun q => n_units (snd q)) ds)).
Proof.
  revert res tr p; induction ds as [|[dn d] ds IH]; intros res tr p; simpl.
  - exists p. refine (conj eq_refl (conj eq_refl (conj eq_refl (conj eq_refl _)))).
    intros; repeat split; lia.
  - unfold pbind, bind. simpl.
    destruct (p_model_loop_sim dn d ms res tr
                {| model_task := model_task p; data_task := advance (data_task p);
                   unit_task := unit_task p |}) as [p1 [Hp1 [H1 [H2 [H3 H4]]]]].
    rewrite Hp1.
    destruct (model_loop Dataset Result Exn n_units tpd dn d ms res tr)
      as [[e|v] tr1]; simpl in *.
    + exists p1. split; [reflexivity|]. refine (conj _ (conj _ (conj _ _))); try congruence.
    + destruct (H4 v eq_refl) as [K1 [K2 K3]].
      destruct (IH v tr1 p1) as [p' [Hp [G1 [G2 [G3 G4]]]]].
      exists p'. split; [exact Hp|]. refine (conj _ (conj _ (conj _ _))); try congruence.
      intros w Hw; destruct (G4 w Hw) as [? [? ?]]. repeat split; nia.
Qed.

Local Abbreviation execute := (execute Dataset Result Exn n_units tpd).
Local Abbreviation execute_progress := (execute_progress Dataset Result Exn n_units tpd).

Lemma execute_progress_sim ms ds tr :
  exists p',
    execute_progress ms ds tr = (fst (execute ms ds tr), (snd (execute ms ds tr), p')) /\
    tm p' = length ms /\ td p' = length ds /\
    tu p' = list_sum (map (fun q => n_units (snd q)) ds) /\
    (forall r, fst (execute ms ds tr) = inr r ->
       cm p' = length ds * length ms /\ cd p' = length ds /\
       cu p' = length ms * list_sum (map (fun q => n_units (snd q)) ds)).
Proof.
  unfold PlaceboProgress.execute_progress, Placebo.execute, pbind, bind.
  match goal with |- context [p_data_loop _ _ _ _ _ ds ms [] (tr, ?p0)] =>
    destruct (p_data_loop_sim ds ms [] tr p0) as [p1 [Hp1 [H1 [H2 [H3 H4]]]]] end.
  rewrite Hp1. simpl in *.
  destruct (data_loop Dataset Result Exn n_units tpd ds ms [] tr) as [[e|v] tr1]; simpl in *.
  - exists p1. refine (conj eq_refl (conj H1 (conj H2 (conj H3 _)))).
    intros r Hr; discriminate.
  - exists p1. refine (conj eq_refl (conj H1 (conj H2 (conj H3 _)))).
    intros r _. destruct (H4 v eq_refl) as [? [? ?]]. repeat split; lia.
Qed.

(** The progress bars do not change what [execute] does: the outcome and
    the invocation trace are those of the run without them, and the three
    tasks have totals [len(models)], [len(datasets)] and
    [sum(d.n_units)]. *)
Theorem execute_progress_observational ms ds tr :
  let '(o, (tr', p)) := execute_progress ms ds tr in
  (o, tr') = execute ms ds tr /\
  tm p = length ms /\ td p = length ds /\
  tu p = list_sum (map (fun q => n_units (snd q)) ds).
Proof.
  destruct (execute_progress_sim ms ds tr) as [p [Hp [H1 [H2 [H3 _]]]]].
  rewrite Hp. split; [|auto]. destruct (execute ms ds tr); reflexivity.
Qed.

(** At the end of a run that returns, the "Datasets" bar is full, while the
    "Models" bar has advanced [len(datasets)] times its total [len(models)]
    and the "Control Units" bar [len(models)] times its total
    [sum(d.n_units)]: both overshoot as soon as there are two datasets,
    respectively two models (and a control unit). *)
Theorem execute_progress_final_counts ms ds tr r tr' p :
  execute_progress ms ds tr = (inr r, (tr', p)) ->
  cd p = td p /\
  cm p = length ds * tm p /\
  cu p = length ms * tu p.
Proof.
  intros H.
  destruct (execute_progress_sim ms ds tr) as [p' [Hp [H1 [H2 [H3 H4]]]]].
  rewrite H in Hp. injection Hp as Ho _ ->.
  destruct (H4 r (eq_sym Ho)) as [K1 [K2 K3]].
  rewrite H1, H2, H3. repeat split; assumption.
Qed.

End Facts.
End ProgressFacts.

(** Binary64 facts for a single effect: numpy's mean, variance and standard
    deviation of a one-element array, read through the IEEE-754
    specification of the primitive operations. *)
Module Binary64Facts.
Import PrimFloat SpecFloat FloatOps FloatAxioms.
Local Open Scope Z_scope.







End Binary64Facts.

Module AggFacts.
Import PrimFloat.
Import Stdlib.Reals.R_sqrt.
Import AggExact.
Local Open Scope R_scope.

Lemma fold_left_Rplus (xs : list R) (a : R) :
  fold_left Rplus xs a = a + fold_right Rplus 0 xs.
Proof.
  revert a; induction xs as [|x xs IH]; intros a; simpl; [ring|].
  rewrite IH. ring.
Qed.

Lemma np_sum_fold_right (xs : list R) : np_sum xs = fold_right Rplus 0 xs.
Proof. unfold np_sum. rewrite fold_left_Rplus. ring. Qed.

Lemma np_mean_average (xs : list R) : np_mean xs = average xs.
Proof. unfold np_mean, average. rewrite np_sum_fold_right. reflexivity. Qed.

Lemma np_var_sum_sq_dev (xs : list R) (ddof : nat) :
  np_var xs ddof = sum_sq_dev xs / INR (length xs - ddof).
Proof.
  unfold np_var, sum_sq_dev. rewrite np_sum_fold_right, np_mean_average.
  f_equal. f_equal. apply map_ext. intros e. ring.
Qed.

Lemma sum_perm (xs ys : list R) :
  Permutation xs ys -> fold_right Rplus 0 xs = fold_right Rplus 0 ys.
Proof.
  induction 1 as [| x xs ys _ IH | x y xs | xs ys zs _ IH1 _ IH2]; simpl.
  - reflexivity.
  - rewrite IH. reflexivity.
  - ring.
  - rewrite IH1, IH2. reflexivity.
Qed.

Lemma np_mean_perm (xs ys : list R) : Permutation xs ys -> np_mean xs = np_mean ys.
Proof.
  intros Hp. unfold np_mean. rewrite !np_sum_fold_right, (sum_perm _ _ Hp).
  rewrite (Permutation_length Hp). reflexivity.
Qed.

Lemma np_var_perm (xs ys : list R) ddof :
  Permutation xs ys -> np_var xs ddof = np_var ys ddof.
Proof.
  intros Hp. unfold np_var. rewrite (np_mean_perm _ _ Hp), !np_sum_fold_right.
  rewrite (sum_perm _ _ (Permutation_map _ Hp)), (Permutation_length Hp).
  reflexivity.
Qed.

Lemma sum_const (xs : list R) (c : R) :
  Forall (fun e => e = c) xs -> fold_right Rplus 0 xs = INR (length xs) * c.
Proof.
  induction 1 as [|x xs Hx _ IH]; simpl; [ring|].
  rewrite IH, Hx. destruct (length xs); simpl; ring.
Qed.

Lemma np_mean_const (xs : list R) (c : R) :
  xs <> [] -> Forall (fun e => e = c) xs -> np_mean xs = c.
Proof.
  intros Hne Hc. unfold np_mean. rewrite np_sum_fold_right, (sum_const _ _ Hc).
  assert (0 < INR (length xs)).
  { apply lt_0_INR. destruct xs; [congruence | simpl; lia]. }
  field. lra.
Qed.

Lemma np_var_const (xs : list R) (c : R) ddof :
  xs <> [] -> Forall (fun e => e = c) xs -> np_var xs ddof = 0.
Proof.
  intros Hne Hc. unfold np_var. rewrite (np_mean_const _ _ Hne Hc), np_sum_fold_right.
  rewrite (sum_const _ 0).
  - unfold Rdiv. ring.
  - apply Forall_forall. intros y Hy. apply in_map_iff in Hy as [x [<- Hx]].
    rewrite Forall_forall in Hc. rewrite (Hc x Hx). ring.
Qed.

Lemma forallb_false {A} (f : A -> bool) (l : list A) x :
  In x l -> f x = false -> forallb f l = false.
Proof.
  intros Hin Hf. destruct (forallb f l) eqn:E; [|reflexivity].
  rewrite forallb_forall in E. rewrite (E x Hin) in Hf. discriminate.
Qed.

(** C2: on a non-empty effect list the summary row holds the average, the
    population standard deviation (divisor n), that deviation over sqrt n,
    and the p-value of the two-sided one-sample t-test of mean 0. *)
Theorem model_to_df_statistics (t_sf : R -> R -> R) (Result : Type)
    (percentage : Result -> R) (model dataset : string) (effects : list Result) :
  effects <> [] ->
  let es := map percentage effects in
  let row := _model_to_df t_sf Result percentage model dataset effects in
  Effect row = fold_right Rplus 0 es / INR (length es) /\
  Standard_Deviation row = population_stddev es /\
  Standard_Error row = population_stddev es / sqrt (INR (length es)) /\
  p_value row = t_test_two_sided t_sf es 0.
Proof.
  intros Hne es row.
  assert (Hn : 0 < INR (length es)).
  { apply lt_0_INR. unfold es. rewrite length_map. destruct effects; [congruence | simpl; lia]. }
  unfold row, _model_to_df, np_std, ttest_1samp_pvalue, population_stddev,
    t_test_two_sided, sample_stddev; cbv zeta; simpl.
  fold es. rewrite !np_var_sum_sq_dev, !np_mean_average, Nat.sub_0_r.
  split; [unfold average; reflexivity|].
  split; [reflexivity|]. split; [reflexivity|].
  rewrite sqrt_div_alt by exact Hn. rewrite Rminus_0_r. reflexivity.
Qed.


(** Binary64: two orders of the same three effects with different means. *)
Lemma float_order_changes_mean (t_sf : PrimFloat.float -> PrimFloat.float -> PrimFloat.float) :
  Permutation [1e16%float; (-1e16)%float; 1%float] [1%float; 1e16%float; (-1e16)%float] /\
  AggFloat.Effect (AggFloat._model_to_df t_sf PrimFloat.float (fun e => e) "m" "d"
                     [1e16%float; (-1e16)%float; 1%float]) <>
  AggFloat.Effect (AggFloat._model_to_df t_sf PrimFloat.float (fun e => e) "m" "d"
                     [1%float; 1e16%float; (-1e16)%float]).
Proof.
  split.
  - apply Permutation_sym. apply (Permutation_cons_append [1e16%float; (-1e16)%float] 1%float).
  - intros E. apply (f_equal (fun x => PrimFloat.eqb x 0%float)) in E.
    vm_compute in E. discriminate.
Qed.



(** C5 (amended): in exact arithmetic the summary row of [_model_to_df]
    (mean, standard deviation, standard error, p-value) is the same for any
    permutation of the effect list; in double precision it is not: two
    orders of [1e16, -1e16, 1] give different means. *)
Theorem model_to_df_order_exact_vs_float :
  (forall (t_sf : R -> R -> R) (Result : Type) (percentage : Result -> R)
          (model dataset : string) (effects effects' : list Result),
     Permutation effects effects' ->
     _model_to_df t_sf Result percentage model dataset effects =
     _model_to_df t_sf Result percentage model dataset effects') /\
  (forall t_sf : PrimFloat.float -> PrimFloat.float -> PrimFloat.float,
     Permutation [1e16%float; (-1e16)%float; 1%float] [1%float; 1e16%float; (-1e16)%float] /\
     AggFloat.Effect (AggFloat._model_to_df t_sf PrimFloat.float (fun e => e) "m" "d"
                        [1e16%float; (-1e16)%float; 1%float]) <>
     AggFloat.Effect (AggFloat._model_to_df t_sf PrimFloat.float (fun e => e) "m" "d"
                        [1%float; 1e16%float; (-1e16)%float])).
Proof.
  split; [|exact float_order_changes_mean].
  intros t_sf Result percentage model dataset effects effects' Hp.
  pose proof (Permutation_map percentage Hp) as Hpm.
  unfold _model_to_df, np_std, ttest_1samp_pvalue; cbv zeta.
  rewrite (np_mean_perm _ _ Hpm), !(np_var_perm _ _ _ Hpm), (Permutation_length Hpm).
  reflexivity.
Qed.

End AggFacts.

Module AggWitnesses.
Import PrimFloat.
Import Stdlib.Reals.R_sqrt.
Import AggExact.
Import AggFacts.
Local Open Scope string_scope.
Local Open Scope R_scope.

Lemma model_to_df_statistics_witness :
  [1; 2; 4] <> [] /\
  (let es := map (fun e => e) [1; 2; 4] in
   let row := _model_to_df (fun x _ => x) R (fun e => e) "m" "d" [1; 2; 4] in
   Effect row = fold_right Rplus 0 es / INR (length es) /\
   Standard_Deviation row = population_stddev es /\
   Standard_Error row = population_stddev es / sqrt (INR (length es)) /\
   p_value row = t_test_two_sided (fun x _ => x) es 0).
Proof.
  split; [discriminate|].
  apply (model_to_df_statistics (fun x _ => x) R (fun e => e) "m" "d" [1; 2; 4]).
  discriminate.
Defined.



(** Binary64 counterexample to order independence of [_model_to_df]. *)
Lemma model_to_df_order_float_cex :
  ~ (forall (t_sf : float -> float -> float) (Result : Type) (percentage : Result -> float)
            (model dataset : string) (effects effects' : list Result),
       Permutation effects effects' ->
       AggFloat._model_to_df t_sf Result percentage model dataset effects =
       AggFloat._model_to_df t_sf Result percentage model dataset effects').
Proof.
  intros H.
  assert (Hp : Permutation [1e16%float; (-1e16)%float; 1%float]
                           [1%float; 1e16%float; (-1e16)%float])
    by (apply Permutation_sym;
        apply (Permutation_cons_append [1e16%float; (-1e16)%float] 1%float)).
  pose proof (H (fun _ _ => 0%float) float (fun e => e) "m"%string "d"%string _ _ Hp) as E.
  apply (f_equal (fun r => PrimFloat.eqb (AggFloat.Effect r) 0%float)) in E.
  vm_compute in E. discriminate.
Qed.

Lemma model_to_df_order_exact_vs_float_witness :
  (Permutation [1; 2; 4] [4; 1; 2] /\
   _model_to_df (fun x _ => x) R (fun e => e) "m" "d" [1; 2; 4] =
   _model_to_df (fun x _ => x) R (fun e => e) "m" "d" [4; 1; 2]) /\
  AggFloat.Effect (AggFloat._model_to_df (fun _ _ => 0%float) float (fun e => e) "m" "d"
                     [1e16%float; (-1e16)%float; 1%float]) <>
  AggFloat.Effect (AggFloat._model_to_df (fun _ _ => 0%float) float (fun e => e) "m" "d"
                     [1%float; 1e16%float; (-1e16)%float]).
Proof.
  assert (Hp : Permutation [1; 2; 4] [4; 1; 2])
    by (apply Permutation_sym; apply (Permutation_cons_append [1; 2] 4)).
  split; [split; [exact Hp|]|].
  - exact (proj1 model_to_df_order_exact_vs_float (fun x _ => x) R (fun e => e)
             "m" "d" _ _ Hp).
  - exact (proj2 (proj2 model_to_df_order_exact_vs_float (fun _ _ => 0%float))).
Defined.

End AggWitnesses.

Module AggExtra.
Import PrimFloat.
Import Stdlib.Reals.R_sqrt.
Import AggExact AggFacts.
Local Open Scope R_scope.

Lemma sum_map_scal (c : R) (xs : list R) :
  fold_right Rplus 0 (map (fun x => c * x) xs) = c * fold_right Rplus 0 xs.
Proof. induction xs as [|x xs IH]; simpl; [ring|]. rewrite IH. ring. Qed.

Lemma np_mean_scale (c : R) (xs : list R) :
  np_mean (map (fun x => c * x) xs) = c * np_mean xs.
Proof.
  unfold np_mean. rewrite !np_sum_fold_right, sum_map_scal, length_map.
  unfold Rdiv. ring.
Qed.

Lemma np_var_scale (c : R) (xs : list R) ddof :
  np_var (map (fun x => c * x) xs) ddof = (c * c) * np_var xs ddof.
Proof.
  unfold np_var. rewrite np_mean_scale, !np_sum_fold_right, length_map, map_map.
  rewrite (map_ext (fun x => (c * x - c * np_mean xs) * (c * x - c * np_mean xs))
             (fun x => (c * c) * ((x - np_mean xs) * (x - np_mean xs))))
    by (intros; ring).
  rewrite <- (map_map (fun x => (x - np_mean xs) * (x - np_mean xs)) (fun y => (c * c) * y)).
  rewrite sum_map_scal. unfold Rdiv. ring.
Qed.

Lemma np_mean_shift (b : R) (xs : list R) :
  xs <> [] -> np_mean (map (fun x => x + b) xs) = np_mean xs + b.
Proof.
  intros Hne. unfold np_mean. rewrite !np_sum_fold_right, length_map.
  assert (Hs : forall ys, fold_right Rplus 0 (map (fun x => x + b) ys) =
                          fold_right Rplus 0 ys + INR (length ys) * b).
  { induction ys as [|y ys IH]; simpl; [ring|]. rewrite IH. destruct (length ys); simpl; ring. }
  rewrite Hs.
  assert (0 < INR (length xs)) by (apply lt_0_INR; destruct xs; [congruence | simpl; lia]).
  field. lra.
Qed.

Lemma np_var_shift (b : R) (xs : list R) ddof :
  np_var (map (fun x => x + b) xs) ddof = np_var xs ddof.
Proof.
  destruct xs as [|x0 xs0] eqn:E; [reflexivity|]. rewrite <- E.
  assert (Hne : xs <> []) by (rewrite E; discriminate).
  unfold np_var. rewrite (np_mean_shift b xs Hne), length_map, map_map.
  f_equal. f_equal. apply map_ext. intros; ring.
Qed.

Lemma sum_sq_nonneg (f : R -> R) (xs : list R) :
  0 <= fold_right Rplus 0 (map (fun x => f x * f x) xs).
Proof.
  induction xs as [|x xs IH]; simpl; [lra|].
  pose proof (Rle_0_sqr (f x)) as H. unfold Rsqr in H. lra.
Qed.

Lemma np_var_nonneg (xs : list R) ddof : 0 <= np_var xs ddof.
Proof.
  unfold np_var. rewrite np_sum_fold_right.
  pose proof (sum_sq_nonneg (fun e => e - np_mean xs) xs) as H.
  destruct (length xs - ddof)%nat as [|k].
  - simpl. rewrite Rdiv_0_r. lra.
  - unfold Rdiv. apply Rmult_le_pos; [exact H|].
    left; apply Rinv_0_lt_compat, lt_0_INR; lia.
Qed.

Lemma sum_sq_pos (f : R -> R) (xs : list R) z :
  In z xs -> f z <> 0 -> 0 < fold_right Rplus 0 (map (fun x => f x * f x) xs).
Proof.
  induction xs as [|x xs IH]; simpl; [tauto|].
  intros [->|Hin] Hz.
  - pose proof (sum_sq_nonneg f xs). pose proof (Rsqr_pos_lt (f z) Hz) as Hp.
    unfold Rsqr in Hp. lra.
  - pose proof (IH Hin Hz). pose proof (Rle_0_sqr (f x)) as Hp. unfold Rsqr in Hp. lra.
Qed.

Lemma all_eq_or_other (h : R) (xs : list R) :
  Forall (fun e => e = h) xs \/ exists y, In y xs /\ y <> h.
Proof.
  induction xs as [|x xs [IH|[y [Hy Hne]]]].
  - left; constructor.
  - destruct (Req_dec_T x h) as [->|Hx].
    + left; constructor; [reflexivity | exact IH].
    + right; exists x; split; [left; reflexivity | exact Hx].
  - right; exists y; split; [right; exact Hy | exact Hne].
Qed.

(** The population standard deviation is positive exactly when two values differ. *)
Lemma np_std_pos_iff (xs : list R) :
  0 < np_std xs 0 <-> exists x y, In x xs /\ In y xs /\ x <> y.
Proof.
  unfold np_std. split.
  - intros Hpos. destruct xs as [|h t].
    + exfalso. unfold np_var in Hpos. simpl in Hpos.
      rewrite Rdiv_0_r, sqrt_0 in Hpos. lra.
    + destruct (all_eq_or_other h (h :: t)) as [Hall|[y [Hy Hne]]].
      * exfalso. rewrite (np_var_const (h :: t) h 0 ltac:(discriminate) Hall), sqrt_0 in Hpos.
        lra.
      * exists y, h. split; [exact Hy|]. split; [left; reflexivity | exact Hne].
  - intros [x [y [Hx [Hy Hne]]]]. apply sqrt_lt_R0.
    unfold np_var. rewrite np_sum_fold_right.
    assert (Hz : exists z, In z xs /\ z - np_mean xs <> 0).
    { destruct (Req_dec_T (x - np_mean xs) 0) as [Hx0|Hx0]; [|eauto].
      exists y; split; [exact Hy|]. intros Hy0. apply Hne. lra. }
    destruct Hz as [z [Hz Hz0]].
    apply Rdiv_lt_0_compat.
    + exact (sum_sq_pos (fun e => e - np_mean xs) xs z Hz Hz0).
    + apply lt_0_INR. destruct xs; [contradiction | simpl; lia].
Qed.

Lemma np_std_nonneg (xs : list R) ddof : 0 <= np_std xs ddof.
Proof. apply sqrt_pos. Qed.

Lemma greater_than_0_spec (x : R) : greater_than_0 x = true <-> 0 < x.
Proof. unfold greater_than_0. destruct (Rlt_dec 0 x); split; congruence || lra. Qed.

Section Rows.
Variable t_sf : R -> R -> R.
Variable Result : Type.
Variable percentage : Result -> R.

Local Abbreviation _model_to_df := (_model_to_df t_sf Result percentage).
Local Abbreviation to_df := (to_df t_sf Result percentage).

Lemma std_error_pos_iff (es : list R) :
  0 < np_std es 0 / sqrt (INR (length es)) <-> 0 < np_std es 0.
Proof.
  destruct es as [|e es].
  - unfold np_std, np_var. simpl. rewrite Rdiv_0_r, sqrt_0, Rdiv_0_l. lra.
  - assert (Hn : 0 < sqrt (INR (length (e :: es))))
      by (apply sqrt_lt_R0, lt_0_INR; simpl; lia).
    split; intros H.
    + replace (np_std (e :: es) 0)
        with (np_std (e :: es) 0 / sqrt (INR (length (e :: es))) * sqrt (INR (length (e :: es))))
        by (field; lra).
      apply Rmult_lt_0_compat; assumption.
    + apply Rdiv_lt_0_compat; assumption.
Qed.

Local Abbreviation row_of :=
  (fun kv : key * list Result =>
     let '((model, dataset), effect) := kv in _model_to_df model dataset effect).

Lemma row_valid_iff (kv : key * list Result) :
  greater_than_0 (Standard_Deviation (row_of kv)) &&
  greater_than_0 (Standard_Error (row_of kv)) = true <->
  exists r1 r2, In r1 (snd kv) /\ In r2 (snd kv) /\ percentage r1 <> percentage r2.
Proof.
  destruct kv as [[model dataset] effect]. simpl.
  rewrite andb_true_iff, !greater_than_0_spec. unfold AggExact._model_to_df. simpl.
  rewrite std_error_pos_iff, np_std_pos_iff.
  split.
  - intros [[x [y [Hx [Hy Hne]]]] _].
    apply in_map_iff in Hx as [r1 [<- Hr1]]. apply in_map_iff in Hy as [r2 [<- Hr2]].
    exists r1, r2. auto.
  - intros [r1 [r2 [H1 [H2 Hne]]]].
    assert (P : exists x y, In x (map percentage effect) /\ In y (map percentage effect) /\ x <> y)
      by (exists (percentage r1), (percentage r2); split; [apply in_map; exact H1|];
          split; [apply in_map; exact H2 | exact Hne]).
    split; exact P.
Qed.

Lemma schema_valid_iff (effects : list (key * list Result)) :
  PlaceboSchema_valid (map row_of effects) = true <->
  Forall (fun kv => exists r1 r2, In r1 (snd kv) /\ In r2 (snd kv) /\
                                  percentage r1 <> percentage r2) effects.
Proof.
  unfold PlaceboSchema_valid. rewrite forallb_forall, Forall_forall. split.
  - intros H kv Hkv. apply row_valid_iff. exact (H _ (in_map row_of _ _ Hkv)).
  - intros H r Hr. apply in_map_iff in Hr as [kv [<- Hkv]].
    apply row_valid_iff. exact (H kv Hkv).
Qed.

Lemma to_df_eq (effects : list (key * list Result)) :
  to_df effects =
  match effects with
  | [] => inl ConcatEmpty
  | _ => if PlaceboSchema_valid (map row_of effects) then inr (map row_of effects)
         else inl SchemaError
  end.
Proof. destruct effects; reflexivity. Qed.

Lemma to_df_inr_iff (effects : list (key * list Result)) :
  (exists rows, to_df effects = inr rows) <->
  effects <> [] /\
  Forall (fun kv => exists r1 r2, In r1 (snd kv) /\ In r2 (snd kv) /\
                                  percentage r1 <> percentage r2) effects.
Proof.
  rewrite to_df_eq, <- schema_valid_iff.
  destruct effects as [|kv es]; [split; [intros [rows H]; discriminate | intros [H _]; congruence]|].
  destruct (PlaceboSchema_valid (map row_of (kv :: es))).
  - split; [intros _; split; [discriminate | reflexivity] | eauto].
  - split; [intros [rows H]; discriminate | intros [_ H]; discriminate].
Qed.

Lemma to_df_inr_rows (effects : list (key * list Result)) rows :
  to_df effects = inr rows -> rows = map row_of effects.
Proof.
  rewrite to_df_eq. destruct effects; [discriminate|].
  destruct (PlaceboSchema_valid _); [congruence | discriminate].
Qed.

Lemma to_df_inl (effects : list (key * list Result)) e :
  to_df effects = inl e -> e = ConcatEmpty /\ effects = [] \/ e = SchemaError /\ effects <> [].
Proof.
  rewrite to_df_eq. destruct effects; [intros H; injection H as <-; auto|].
  destruct (PlaceboSchema_valid _); [discriminate|]. intros H; injection H as <-.
  right; split; [reflexivity | discriminate].
Qed.

(** [to_df] returns a table exactly when the dict is non-empty and every
    (model, dataset) entry has two results of different percentage;
    otherwise it raises: the [pd.concat] error for an empty dict, the schema
    error (a zero standard deviation or standard error) for any other. *)
Theorem to_df_outcome (effects : list (key * list Result)) :
  ((exists rows, to_df effects = inr rows) <->
   effects <> [] /\
   Forall (fun kv => exists r1 r2, In r1 (snd kv) /\ In r2 (snd kv) /\
                                   percentage r1 <> percentage r2) effects) /\
  (to_df effects = inl ConcatEmpty <-> effects = []).
Proof.
  split; [apply to_df_inr_iff|].
  split; [|intros ->; reflexivity].
  intros H. destruct (to_df_inl _ _ H) as [[_ He]|[He _]]; [exact He | discriminate].
Qed.

(** Multiplying every percentage by [c <> 0] (a change of unit) multiplies
    the effect by [c], the standard deviation and the standard error by
    [|c|], and leaves the p-value unchanged. *)
Theorem model_to_df_scale (c : R) (model dataset : string) (effects : list Result) :
  c <> 0 ->
  let row := _model_to_df model dataset effects in
  let row' := AggExact._model_to_df t_sf Result (fun e => c * percentage e)
                model dataset effects in
  Effect row' = c * Effect row /\
  Standard_Deviation row' = Rabs c * Standard_Deviation row /\
  Standard_Error row' = Rabs c * Standard_Error row /\
  p_value row' = p_value row.
Proof.
  intros Hc. unfold AggExact._model_to_df, ttest_1samp_pvalue, np_std. simpl.
  rewrite <- (map_map percentage (fun x => c * x)).
  set (xs := map percentage effects).
  rewrite length_map, np_mean_scale, !np_var_scale, !Rminus_0_r.
  assert (Hsq : forall v, 0 <= v -> sqrt (c * c * v) = Rabs c * sqrt v).
  { intros v Hv. rewrite sqrt_mult_alt by (apply Rle_0_sqr).
    change (c * c) with (Rsqr c). rewrite sqrt_Rsqr_abs. reflexivity. }
  pose proof (np_var_nonneg xs 0) as H0. pose proof (np_var_nonneg xs 1) as H1.
  rewrite (Hsq _ H0).
  split; [reflexivity|]. split; [reflexivity|]. split; [unfold Rdiv; ring|].
  replace (c * c * np_var xs 1 / INR (length xs))
    with (c * c * (np_var xs 1 / INR (length xs))) by (unfold Rdiv; ring).
  assert (H2 : 0 <= np_var xs 1 / INR (length xs)).
  { destruct (length xs) as [|k]; [simpl; rewrite Rdiv_0_r; lra|].
    unfold Rdiv. apply Rmult_le_pos; [exact H1|].
    left; apply Rinv_0_lt_compat, lt_0_INR; lia. }
  rewrite (Hsq _ H2).
  f_equal. f_equal.
  assert (Hac : 0 < Rabs c) by (apply Rabs_pos_lt; exact Hc).
  unfold Rdiv. rewrite Rinv_mult, !Rabs_mult, !Rabs_inv, Rabs_Rabsolu.
  set (X := / Rabs (sqrt _)).
  transitivity (Rabs c * / Rabs c * (Rabs (np_mean xs) * X)); [ring|].
  rewrite Rinv_r by lra. ring.
Qed.

(** Adding [b] to every percentage of a non-empty list adds [b] to the
    effect and leaves the standard deviation and the standard error
    unchanged. *)
Theorem model_to_df_shift (b : R) (model dataset : string) (effects : list Result) :
  effects <> [] ->
  let row := _model_to_df model dataset effects in
  let row' := AggExact._model_to_df t_sf Result (fun e => percentage e + b)
                model dataset effects in
  Effect row' = Effect row + b /\
  Standard_Deviation row' = Standard_Deviation row /\
  Standard_Error row' = Standard_Error row.
Proof.
  intros Hne. unfold AggExact._model_to_df, np_std. simpl.
  rewrite <- (map_map percentage (fun x => x + b)).
  assert (Hne' : map percentage effects <> []) by (destruct effects; [congruence | discriminate]).
  rewrite length_map, (np_mean_shift b _ Hne'), np_var_shift.
  split; reflexivity || (split; reflexivity).
Qed.

(** With at least two results and a positive standard deviation, the
    p-value is the two-sided tail at [|t|] with [n - 1] degrees of freedom,
    where [t = Effect / Standard_Error * sqrt((n - 1) / n)]: the reported
    standard error uses the population deviation (ddof 0), the t-test the
    sample deviation (ddof 1). *)
Theorem model_to_df_pvalue_vs_std_error (model dataset : string) (effects : list Result) :
  (2 <= length effects)%nat ->
  let row := _model_to_df model dataset effects in
  0 < Standard_Deviation row ->
  p_value row =
  2 * t_sf (Rabs (Effect row / Standard_Error row *
                  sqrt (INR (length effects - 1) / INR (length effects))))
           (INR (length effects - 1)).
Proof.
  intros Hn. unfold AggExact._model_to_df, ttest_1samp_pvalue, np_std, np_var. simpl.
  rewrite length_map. set (xs := map percentage effects). set (n := length effects).
  set (S := np_sum (map (fun e => (e - np_mean xs) * (e - np_mean xs)) xs)).
  rewrite Nat.sub_0_r, Rminus_0_r. intros Hsd.
  assert (Hn0 : 0 < INR n) by (apply lt_0_INR; lia).
  assert (Hn1 : 0 < INR (n - 1)) by (apply lt_0_INR; lia).
  f_equal. f_equal. f_equal.
  replace (S / INR (n - 1) / INR n) with (S / INR n / INR (n - 1)) by (field; lra).
  rewrite (sqrt_div_alt (S / INR n)) by exact Hn1.
  rewrite (sqrt_div_alt (INR (n - 1))) by exact Hn0.
  assert (0 < sqrt (INR n)) by (apply sqrt_lt_R0; exact Hn0).
  assert (0 < sqrt (INR (n - 1))) by (apply sqrt_lt_R0; exact Hn1).
  field. lra.
Qed.

End Rows.
End AggExtra.

Module ComposeFacts.
Import Placebo PlaceboFacts PlaceboExtra.

Lemma dict_set_fresh {V} (d : list (key * V)) k v :
  ~ In k (map fst d) -> dict_set d k v = d ++ [(k, v)].
Proof.
  induction d as [|[k' v'] d IH]; simpl; [reflexivity|].
  intros Hk. destruct (key_eqb k k') eqn:E.
  - apply PyDictFacts.key_eqb_spec in E. subst k'. exfalso; apply Hk; left; reflexivity.
  - rewrite IH; [reflexivity|]. intros H; apply Hk; right; exact H.
Qed.

(** Assigning keys that are all distinct and new appends the pairs in order. *)
Lemma set_all_fresh {V} (d : list (key * V)) kvs :
  NoDup (map fst d ++ map fst kvs) -> set_all d kvs = d ++ kvs.
Proof.
  revert d; induction kvs as [|[k v] kvs IH]; simpl; intros d Hnd.
  - rewrite app_nil_r; reflexivity.
  - assert (Hk : ~ In k (map fst d)).
    { intros Hin. apply (nodup_app_disjoint _ _ k Hnd Hin). left; reflexivity. }
    rewrite dict_set_fresh by exact Hk. rewrite IH.
    + rewrite <- app_assoc. reflexivity.
    + rewrite map_app, <- app_assoc. exact Hnd.
Qed.

Lemma length_le_1_same {A} (l : list A) x y :
  (length l <= 1)%nat -> In x l -> In y l -> x = y.
Proof.
  destruct l as [|a [|b l]]; simpl; intros Hl.
  - intros [].
  - intros [<-|[]] [<-|[]]; reflexivity.
  - lia.
Qed.

Section Compose.
Context {D Result Exn : Type}.
Variable n_units : D -> nat.
Variable tpd : D -> nat -> D.
Variable t_sf : R -> R -> R.
Variable percentage : Result -> R.

Local Abbreviation execute := (execute D Result Exn n_units tpd).
Local Abbreviation to_df := (AggExact.to_df t_sf Result percentage).

(** With distinct model names and dataset names, the table built from a
    run that returns has its rows in loop order: for each dataset, one row
    per model, in the order of [self.models]. *)
Theorem execute_to_df_row_order ms ds tr r tr' rows :
  NoDup (map (_model_name _ _ _) ms) -> NoDup (map fst ds) ->
  execute ms ds tr = (inr r, tr') ->
  to_df (effects _ r) = inr rows ->
  map (fun row => (AggExact.Model row, AggExact.Dataset row)) rows =
  flat_map (fun p => map (fun m => (_model_name _ _ _ m, fst p)) ms) ds.
Proof.
  intros Hms Hds He Ht.
  apply execute_inr in He as [kvss [HF Hr]].
  assert (Hkeys := entries_keys n_units tpd ms ds kvss HF).
  apply AggExtra.to_df_inr_rows in Ht. subst rows.
  rewrite Hr, set_all_fresh.
  - simpl. rewrite map_map, <- Hkeys. apply map_ext.
    intros [[model dataset] effect]. reflexivity.
  - simpl. rewrite Hkeys. apply pairs_nodup; assumption.
Qed.

(** The entry a run that returns stores for a model and a dataset with a
    name of its own holds one result per control unit of that dataset. *)
Lemma execute_entry_length ms ds m dn d tr r tr' :
  NoDup (map fst ds) -> In (dn, d) ds -> In m ms ->
  execute ms ds tr = (inr r, tr') ->
  exists v, In ((_model_name _ _ _ m, dn), v) (effects _ r) /\ length v = n_units d.
Proof.
  intros Hds Hd Hm He.
  apply execute_inr in He as [kvss [HF Hr]].
  destruct (Forall2_in_l _ _ _ _ HF Hd) as [kvs [Hkvs HFm]].
  destruct (Forall2_in_l _ _ _ _ HFm Hm) as [[k rs] [Hkv [Hk _]]].
  simpl in Hk. subst k.
  destruct (last_assoc_in_keys (concat kvss) (_model_name _ _ _ m, dn)) as [v Hv].
  { apply in_map_iff. exists ((_model_name _ _ _ m, dn), rs). split; [reflexivity|].
    apply in_concat. exists kvs; split; assumption. }
  assert (Hin : In ((_model_name _ _ _ m, dn), v) (effects _ r)).
  { apply dict_get_in. rewrite Hr, PyDictFacts.get_set_all, Hv. reflexivity. }
  exists v. split; [exact Hin|].
  rewrite Hr in Hin.
  apply in_set_all in Hin as [[]|Hin].
  apply in_concat in Hin as [kvs' [Hkvs' Hin]].
  destruct (Forall2_in_r _ _ _ _ HF Hkvs') as [[dn' d'] [Hp' HFm']].
  destruct (Forall2_in_r _ _ _ _ HFm' Hin) as [m' [_ [Hk' Hrs']]].
  simpl in Hk', Hrs'. injection Hk' as _ <-.
  rewrite <- (nodup_fst_functional ds dn d d' Hds Hd Hp') in Hrs'.
  rewrite <- (length_map (@inr Exn Result) v), Hrs', length_map, length_seq. reflexivity.
Qed.

(** When a dataset (with a name of its own) has at most one control unit and
    there is a model, a run that returns always yields a dict that [to_df]
    rejects with the schema error: the entry of that dataset has at most one
    effect, so its standard deviation is 0. *)
Theorem execute_to_df_single_control ms ds dn d tr r tr' :
  NoDup (map fst ds) -> In (dn, d) ds -> (n_units d <= 1)%nat -> ms <> [] ->
  execute ms ds tr = (inr r, tr') ->
  to_df (effects _ r) = inl SchemaError.
Proof.
  intros Hds Hd Hn Hms He.
  destruct ms as [|m ms']; [congruence|].
  destruct (execute_entry_length (m :: ms') ds m dn d tr r tr' Hds Hd (or_introl eq_refl) He)
    as [v [Hin Hlen]].
  rewrite <- Hlen in Hn.
  destruct (to_df (effects _ r)) as [e|rows] eqn:Et.
  - destruct (AggExtra.to_df_inl t_sf Result percentage _ _ Et) as [[_ Hnil]|[-> _]];
      [rewrite Hnil in Hin; destruct Hin | reflexivity].
  - exfalso.
    destruct (proj1 (AggExtra.to_df_inr_iff t_sf Result percentage (effects _ r))
                (ex_intro _ rows Et)) as [_ Hall].
    rewrite Forall_forall in Hall.
    destruct (Hall _ Hin) as [r1 [r2 [H1 [H2 Hne]]]]. simpl in H1, H2.
    apply Hne. f_equal. exact (length_le_1_same v r1 r2 Hn H1 H2).
Qed.

Variable f_sf : PrimFloat.float -> PrimFloat.float -> PrimFloat.float.
Variable f_percentage : Result -> PrimFloat.float.

(** In double precision too, a dataset (with a name of its own) without
    control units makes [to_df] raise the schema error after a run with a
    model that returns: its entries are empty, and [np.mean] of an empty
    array is NaN, so the standard deviation is NaN and fails
    [greater_than(0.0)]. *)
Theorem execute_to_df_float_no_control ms ds dn d tr r tr' :
  NoDup (map fst ds) -> In (dn, d) ds -> n_units d = 0%nat -> ms <> [] ->
  execute ms ds tr = (inr r, tr') ->
  AggFloat.to_df f_sf Result f_percentage (effects _ r) = inl SchemaError.
Proof.
  intros Hds Hd Hn Hms He.
  destruct ms as [|m ms']; [congruence|].
  destruct (execute_entry_length (m :: ms') ds m dn d tr r tr' Hds Hd (or_introl eq_refl) He)
    as [v [Hin Hlen]].
  rewrite Hn in Hlen. destruct v; [|discriminate].
  unfold AggFloat.to_df.
  destruct (effects _ r) as [|kv es] eqn:Ee; [destruct Hin|]. rewrite <- Ee in Hin |- *.
  assert (Hnot : AggFloat.PlaceboSchema_valid
                   (map (fun '(model, dataset, effect) =>
                           AggFloat._model_to_df f_sf Result f_percentage model dataset effect)
                        (effects _ r)) = false).
  { apply (AggFacts.forallb_false _ _
             (AggFloat._model_to_df f_sf Result f_percentage (_model_name _ _ _ m) dn [])).
    - apply in_map_iff. exists ((_model_name _ _ _ m, dn), []). split; [reflexivity | exact Hin].
    - vm_compute. reflexivity. }
  rewrite Ee in Hnot |- *. simpl in Hnot |- *. rewrite Hnot. reflexivity.
Qed.

End Compose.
End ComposeFacts.

Module TransformFacts.
Import PrimFloat.
Import Stdlib.Reals.R_sqrt.
Import Transforms.

Lemma firstn_app_length {A} (l1 l2 : list A) : firstn (length l1) (l1 ++ l2) = l1.
Proof. induction l1 as [|a l1 IH]; simpl; [reflexivity | now rewrite IH]. Qed.

Lemma skipn_app_length {A} (l1 l2 : list A) : skipn (length l1) (l1 ++ l2) = l2.
Proof. induction l1 as [|a l1 IH]; simpl; [reflexivity | exact IH]. Qed.

Lemma last_nth {A} (l : list A) (d : A) : last l d = nth (length l - 1) l d.
Proof.
  induction l as [|a l IH]; [reflexivity|].
  destruct l as [|b l]; [reflexivity|].
  change (last (b :: l) d = nth (length (b :: l)) (a :: b :: l) d).
  rewrite IH. simpl. rewrite Nat.sub_0_r. reflexivity.
Qed.

Lemma last_skipn {A} (k : nat) (l : list A) (d : A) :
  k < length l -> last (skipn k l) d = last l d.
Proof.
  revert l; induction k as [|k IH]; intros l Hk; [reflexivity|].
  destruct l as [|a l]; simpl in Hk; [lia|].
  simpl skipn. rewrite IH by lia.
  destruct l as [|b l]; [simpl in Hk; lia | reflexivity].
Qed.

Lemma last_app_ne {A} (l1 l2 : list A) (d : A) :
  l2 <> [] -> last (l1 ++ l2) d = last l2 d.
Proof.
  intros Hne. induction l1 as [|a l1 IH]; [reflexivity|].
  simpl. destruct (l1 ++ l2) eqn:E.
  - apply app_eq_nil in E. tauto.
  - exact IH.
Qed.

Lemma last_in {A} (l : list A) (d : A) : l <> [] -> In (last l d) l.
Proof.
  intros Hne. rewrite last_nth. apply nth_In. destruct l; [congruence | simpl; lia].
Qed.

Section Generic.
Context {F : Type} `{Num F}.

Lemma map_cols_length (g : nat -> F -> F) (j : nat) (row : list F) :
  length (map_cols g j row) = length row.
Proof. revert j; induction row; intros j; simpl; [reflexivity | now rewrite IHrow]. Qed.

Lemma map_rows_lengths (f : nat -> list F -> list F) (t : nat) (rows : list (list F)) :
  (forall t r, length (f t r) = length r) ->
  map (@length F) (map_rows f t rows) = map (@length F) rows.
Proof.
  intros Hf. revert t; induction rows as [|r rows IH]; intros t; simpl; [reflexivity|].
  now rewrite Hf, IH.
Qed.

Lemma deform_shape (delta : nat -> nat -> F) (rows : list (list F)) :
  map (@length F) (deform delta rows) = map (@length F) rows.
Proof. apply map_rows_lengths. intros. apply map_cols_length. Qed.

Lemma deform_length (delta : nat -> nat -> F) (rows : list (list F)) :
  length (deform delta rows) = length rows.
Proof.
  rewrite <- (length_map (@length F) (deform delta rows)), deform_shape.
  apply length_map.
Qed.

Lemma rebuild_shape (d : Dataset F) (c t : list (list F)) :
  map (@length F) c = map (@length F) (control_units d) ->
  map (@length F) t = map (@length F) (treated_units d) ->
  length (Xtr d) = length (ytr d) ->
  shape (rebuild d c t) = shape d.
Proof.
  intros Hc Ht Hlen. unfold shape, rebuild; simpl.
  rewrite <- !firstn_map, <- !skipn_map, Hc, Ht.
  unfold control_units, treated_units. rewrite !map_app.
  rewrite <- (length_map (@length F) (Xtr d)) at 1 2.
  rewrite Hlen, <- (length_map (@length F) (ytr d)).
  rewrite !firstn_app_length, !skipn_app_length. reflexivity.
Qed.

Lemma dataset_ok_spec (d : Dataset F) :
  dataset_ok d = true ->
  1 <= length (Xtr d) /\ 1 <= length (Xte d) /\
  length (Xtr d) = length (ytr d) /\ length (Xte d) = length (yte d) /\
  1 <= n_units (ytr d) /\
  Forall (fun r => length r = n_units (Xtr d)) (control_units d) /\
  Forall (fun r => length r = n_units (ytr d)) (treated_units d).
Proof.
  unfold dataset_ok. intros Hok.
  repeat rewrite andb_true_iff in Hok.
  destruct Hok as [[[[[[H1 H2] H3] H4] H5] H6] H7].
  apply Nat.leb_le in H1, H2, H5. apply Nat.eqb_eq in H3, H4.
  rewrite forallb_forall in H6, H7.
  repeat split; try assumption; apply Forall_forall; intros r Hr.
  - apply Nat.eqb_eq. exact (H6 r Hr).
  - apply Nat.eqb_eq. exact (H7 r Hr).
Qed.

Lemma nth_map_rows (f : nat -> list F -> list F) (s : nat) (rows : list (list F)) (t : nat) :
  t < length rows -> nth t (map_rows f s rows) [] = f (s + t) (nth t rows []).
Proof.
  revert s t; induction rows as [|r rows IH]; intros s t Ht; simpl in *; [lia|].
  destruct t as [|t]; [now rewrite Nat.add_0_r|].
  rewrite IH by lia. now replace (s + S t) with (S s + t) by lia.
Qed.

Lemma nth_map_cols (g : nat -> F -> F) (s : nat) (row : list F) (j : nat) :
  j < length row -> nth j (map_cols g s row) num_zero = g (s + j) (nth j row num_zero).
Proof.
  revert s j; induction row as [|x row IH]; intros s j Hj; simpl in *; [lia|].
  destruct j as [|j]; [now rewrite Nat.add_0_r|].
  rewrite IH by lia. now replace (s + S j) with (S s + j) by lia.
Qed.

Lemma nth_deform (delta : nat -> nat -> F) (rows : list (list F)) (t j : nat) :
  t < length rows -> j < length (nth t rows []) ->
  nth j (nth t (deform delta rows) []) num_zero =
  num_add (nth j (nth t rows []) num_zero) (delta t j).
Proof.
  intros Ht Hj. unfold deform. rewrite nth_map_rows by exact Ht.
  rewrite nth_map_cols by exact Hj. reflexivity.
Qed.

Lemma final_value_deform (delta : nat -> nat -> F) (rows : list (list F)) (j : nat) :
  rows <> [] -> j < length (last rows []) ->
  final_value (deform delta rows) j =
  num_add (final_value rows j) (delta (length rows - 1) j).
Proof.
  intros Hne Hj. unfold final_value. rewrite !last_nth, deform_length.
  rewrite last_nth in Hj.
  apply nth_deform; [destruct rows; [congruence | simpl; lia] | exact Hj].
Qed.

Lemma nth_resolve_fixed (v : F) (n j : nat) : nth j (resolve_values (Fixed v) n) v = v.
Proof.
  unfold resolve_values. generalize (seq 0 n) as l. intros l.
  revert j; induction l as [|x l IH]; intros j; destruct j; simpl; auto.
Qed.

Lemma final_value_post_control (d : Dataset F) (c t : list (list F)) (j : nat) :
  length c = length (control_units d) -> 1 <= length (Xte d) ->
  final_value (Xte (rebuild d c t)) j = final_value c j.
Proof.
  intros Hc Hte. unfold final_value, rebuild; simpl.
  rewrite last_skipn; [reflexivity|].
  rewrite Hc. unfold control_units. rewrite length_app. lia.
Qed.

Lemma final_value_post_treated (d : Dataset F) (c t : list (list F)) (j : nat) :
  length t = length (treated_units d) ->
  length (Xtr d) = length (ytr d) -> 1 <= length (yte d) ->
  final_value (yte (rebuild d c t)) j = final_value t j.
Proof.
  intros Ht Hlen Hte. unfold final_value, rebuild; simpl.
  rewrite last_skipn; [reflexivity|].
  rewrite Ht. unfold treated_units. rewrite length_app. lia.
Qed.

Lemma control_units_rebuild (d : Dataset F) (c t : list (list F)) :
  control_units (rebuild d c t) = c.
Proof. unfold control_units at 1, rebuild; simpl. apply firstn_skipn. Qed.

Lemma treated_units_rebuild (d : Dataset F) (c t : list (list F)) :
  treated_units (rebuild d c t) = t.
Proof. unfold treated_units at 1, rebuild; simpl. apply firstn_skipn. Qed.

Lemma resolve_pos (p : Param F) (n : nat) : 1 <= n -> resolve p n = inr (resolve_values p n).
Proof. intros Hn. unfold resolve. destruct (Nat.eqb_spec n 0); [lia | reflexivity]. Qed.

Lemma n_units_control (d : Dataset F) :
  dataset_ok d = true -> n_units (control_units d) = n_units (Xtr d).
Proof.
  intros Hok. destruct (dataset_ok_spec d Hok) as (Htr & _).
  unfold control_units. destruct (Xtr d); [simpl in Htr; lia | reflexivity].
Qed.

Lemma n_units_treated (d : Dataset F) :
  dataset_ok d = true -> n_units (treated_units d) = n_units (ytr d).
Proof.
  intros Hok. destruct (dataset_ok_spec d Hok) as (Htr & _ & Hlen & _).
  unfold treated_units. destruct (ytr d); [simpl in Hlen; lia | reflexivity].
Qed.

Lemma apply_transform_ok (M : list (list F) -> TransformError + list (list F)) (d : Dataset F) :
  dataset_ok d = true ->
  apply_transform M d =
  bind_t (M (control_units d)) (fun c => bind_t (M (treated_units d)) (fun t => inr (rebuild d c t))).
Proof. intros Hok. unfold apply_transform. rewrite Hok. reflexivity. Qed.

Lemma trend_matrix_pos (degree : nat) (co ic : Param F) (rows : list (list F)) :
  1 <= n_units rows ->
  trend_matrix degree co ic rows =
  inr (deform (trend_delta degree (resolve_values co (n_units rows))
                 (resolve_values ic (n_units rows))) rows).
Proof. intros Hn. unfold trend_matrix, bind_t; cbv zeta. rewrite !resolve_pos by exact Hn. reflexivity. Qed.

Lemma trend_matrix_zero (degree : nat) (co ic : Param F) (rows : list (list F)) :
  n_units rows = 0 -> trend_matrix degree co ic rows = inl InvalidConfiguration.
Proof. intros Hn. unfold trend_matrix, bind_t; cbv zeta. rewrite Hn. reflexivity. Qed.

(** With a positive degree, on a Dataset with at least one control unit,
    Trend deforms both full-span matrices. *)
Lemma Trend_pos (degree : nat) (co ic : Param F) (d : Dataset F) :
  1 <= degree -> dataset_ok d = true -> 1 <= n_units (Xtr d) ->
  Trend degree co ic d =
  inr (rebuild d
         (deform (trend_delta degree (resolve_values co (n_units (control_units d)))
                    (resolve_values ic (n_units (control_units d)))) (control_units d))
         (deform (trend_delta degree (resolve_values co (n_units (treated_units d)))
                    (resolve_values ic (n_units (treated_units d)))) (treated_units d))).
Proof.
  intros Hdeg Hok Hn. unfold Trend. destruct (Nat.eqb_spec degree 0) as [E|_]; [lia|].
  rewrite apply_transform_ok by exact Hok.
  destruct (dataset_ok_spec d Hok) as (_ & _ & _ & _ & Hnt & _).
  assert (Hc : 1 <= n_units (control_units d)) by (rewrite n_units_control by exact Hok; exact Hn).
  assert (Ht : 1 <= n_units (treated_units d)) by (rewrite n_units_treated by exact Hok; exact Hnt).
  rewrite (trend_matrix_pos _ _ _ (control_units d) Hc), (trend_matrix_pos _ _ _ (treated_units d) Ht).
  reflexivity.
Qed.

Lemma Trend_invalid (degree : nat) (co ic : Param F) (d : Dataset F) :
  dataset_ok d = true -> degree = 0 \/ n_units (Xtr d) = 0 ->
  Trend degree co ic d = inl InvalidConfiguration.
Proof.
  intros Hok [Hz|Hz]; unfold Trend; [subst; reflexivity|].
  destruct (Nat.eqb degree 0); [reflexivity|].
  rewrite apply_transform_ok by exact Hok.
  rewrite trend_matrix_zero by (rewrite n_units_control by exact Hok; exact Hz).
  reflexivity.
Qed.

Section PeriodicGeneric.
Context `{Trig F}.

Lemma periodic_matrix_pos (a fr sh off : Param F) (rows : list (list F)) :
  1 <= n_units rows ->
  periodic_matrix a fr sh off rows =
  inr (deform (periodic_delta (length rows) (resolve_values a (n_units rows))
                 (resolve_values fr (n_units rows)) (resolve_values sh (n_units rows))
                 (resolve_values off (n_units rows))) rows).
Proof.
  intros Hn. unfold periodic_matrix, bind_t; cbv zeta. rewrite !resolve_pos by exact Hn.
  reflexivity.
Qed.

Lemma periodic_matrix_zero (a fr sh off : Param F) (rows : list (list F)) :
  n_units rows = 0 -> periodic_matrix a fr sh off rows = inl InvalidConfiguration.
Proof. intros Hn. unfold periodic_matrix, bind_t; cbv zeta. rewrite Hn. reflexivity. Qed.

(** On a Dataset with at least one control unit, Periodic deforms both
    full-span matrices. *)
Lemma Periodic_pos (a fr sh off : Param F) (d : Dataset F) :
  dataset_ok d = true -> 1 <= n_units (Xtr d) ->
  Periodic a fr sh off d =
  inr (rebuild d
         (deform (periodic_delta (length (control_units d))
                    (resolve_values a (n_units (control_units d)))
                    (resolve_values fr (n_units (control_units d)))
                    (resolve_values sh (n_units (control_units d)))
                    (resolve_values off (n_units (control_units d)))) (control_units d))
         (deform (periodic_delta (length (treated_units d))
                    (resolve_values a (n_units (treated_units d)))
                    (resolve_values fr (n_units (treated_units d)))
                    (resolve_values sh (n_units (treated_units d)))
                    (resolve_values off (n_units (treated_units d)))) (treated_units d))).
Proof.
  intros Hok Hn. unfold Periodic. rewrite apply_transform_ok by exact Hok.
  destruct (dataset_ok_spec d Hok) as (_ & _ & _ & _ & Hnt & _).
  assert (Hc : 1 <= n_units (control_units d)) by (rewrite n_units_control by exact Hok; exact Hn).
  assert (Ht : 1 <= n_units (treated_units d)) by (rewrite n_units_treated by exact Hok; exact Hnt).
  rewrite (periodic_matrix_pos _ _ _ _ (control_units d) Hc),
    (periodic_matrix_pos _ _ _ _ (treated_units d) Ht).
  reflexivity.
Qed.

Lemma Periodic_invalid (a fr sh off : Param F) (d : Dataset F) :
  dataset_ok d = true -> n_units (Xtr d) = 0 ->
  Periodic a fr sh off d = inl InvalidConfiguration.
Proof.
  intros Hok Hz. unfold Periodic. rewrite apply_transform_ok by exact Hok.
  rewrite periodic_matrix_zero by (rewrite n_units_control by exact Hok; exact Hz).
  reflexivity.
Qed.

End PeriodicGeneric.

Lemma final_value_app (pre post : list (list F)) (j : nat) :
  post <> [] -> final_value (pre ++ post) j = final_value post j.
Proof. intros Hne. unfold final_value. now rewrite last_app_ne. Qed.

End Generic.

Lemma pow_F_R (x : R) (k : nat) : pow_F x k = (x ^ k)%R.
Proof. induction k as [|k IH]; simpl; [reflexivity | now rewrite IH]. Qed.

Lemma trend_final_value (degree : nat) (cs : list R) (n : nat) (rows : list (list R)) (j : nat) :
  rows <> [] -> j < length (last rows []) ->
  final_value (deform (trend_delta degree cs (resolve_values (Fixed 0%R) n)) rows) j =
  (final_value rows j + nth j cs 0 * INR (length rows - 1) ^ degree)%R.
Proof.
  intros Hne Hj.
  rewrite final_value_deform by assumption.
  unfold trend_delta.
  change (@num_zero R Num_R) with 0%R.
  rewrite nth_resolve_fixed, pow_F_R.
  cbn [num_add num_mul num_of_nat Num_R]. ring.
Qed.

Lemma trend_final_sign (v c p : R) :
  (0 < p)%R ->
  ((0 < c)%R -> (v < v + c * p)%R) /\ ((c < 0)%R -> (v + c * p < v)%R).
Proof. intros Hp. split; intros Hc; nra. Qed.

Lemma trend_time_factor (rows : list (list R)) (degree : nat) :
  2 <= length rows -> (0 < INR (length rows - 1) ^ degree)%R.
Proof. intros H2. apply pow_lt. apply lt_0_INR. lia. Qed.

Lemma last_row_width (rows : list (list R)) (n j : nat) :
  rows <> [] -> Forall (fun r => length r = n) rows -> j < n -> j < length (last rows []).
Proof.
  intros Hne Hall Hj. rewrite Forall_forall in Hall.
  rewrite (Hall _ (last_in rows [] Hne)). exact Hj.
Qed.


(** *** Discrete spectrum of a sampled sinusoid *)

Lemma sumR_ext (n : nat) (g h : nat -> R) :
  (forall t, (t < n)%nat -> g t = h t) -> sumR n g = sumR n h.
Proof.
  induction n as [|n IH]; intros Hgh; simpl; [reflexivity|].
  rewrite IH by (intros; apply Hgh; lia). rewrite Hgh by lia. reflexivity.
Qed.

Lemma sumR_plus (n : nat) (g h : nat -> R) :
  sumR n (fun t => g t + h t)%R = (sumR n g + sumR n h)%R.
Proof. induction n as [|n IH]; simpl; [ring | rewrite IH; ring]. Qed.

Lemma sumR_scal (n : nat) (a : R) (g : nat -> R) :
  sumR n (fun t => a * g t)%R = (a * sumR n g)%R.
Proof. induction n as [|n IH]; simpl; [ring | rewrite IH; ring]. Qed.

Lemma sumR_opp (n : nat) (g : nat -> R) :
  sumR n (fun t => - g t)%R = (- sumR n g)%R.
Proof. induction n as [|n IH]; simpl; [ring | rewrite IH; ring]. Qed.

Lemma sumR_const (n : nat) (a : R) : sumR n (fun _ => a) = (INR n * a)%R.
Proof. induction n as [|n IH]; simpl sumR; [simpl; ring | rewrite IH, S_INR; ring]. Qed.

Local Open Scope R_scope.

(** Telescoping: [2 sin h cos (2 t h) = sin ((2t+1) h) - sin ((2t-1) h)]. *)
Lemma sum_cos_telescope (h : R) (n : nat) :
  2 * sin h * sumR n (fun t => cos (INR t * (2 * h))) = sin (INR n * (2 * h) - h) + sin h.
Proof.
  induction n as [|n IH].
  - simpl. replace (0 * (2 * h) - h) with (- h) by ring. rewrite sin_neg. ring.
  - simpl sumR. rewrite Rmult_plus_distr_l, IH, S_INR.
    replace ((INR n + 1) * (2 * h) - h) with (INR n * (2 * h) + h) by ring.
    rewrite sin_plus, sin_minus. ring.
Qed.

Lemma sum_sin_telescope (h : R) (n : nat) :
  2 * sin h * sumR n (fun t => sin (INR t * (2 * h))) = cos h - cos (INR n * (2 * h) - h).
Proof.
  induction n as [|n IH].
  - simpl. replace (0 * (2 * h) - h) with (- h) by ring. rewrite cos_neg. ring.
  - simpl sumR. rewrite Rmult_plus_distr_l, IH, S_INR.
    replace ((INR n + 1) * (2 * h) - h) with (INR n * (2 * h) + h) by ring.
    rewrite cos_plus, cos_minus. ring.
Qed.

Section Spectrum.
Variable T : nat.
Hypothesis HT : (0 < T)%nat.

Let omega := 2 * PI / INR T.
Let C (z : R) := sumR T (fun t => cos (INR t * z)).
Let S (z : R) := sumR T (fun t => sin (INR t * z)).

Lemma INR_T_pos : 0 < INR T.
Proof. apply lt_0_INR. exact HT. Qed.

Lemma harmonic_sums_zero (m : nat) :
  (0 < m)%nat -> (m < T)%nat -> C (INR m * omega) = 0 /\ S (INR m * omega) = 0.
Proof.
  intros Hm HmT. pose proof INR_T_pos as HTp.
  set (h := PI * INR m / INR T).
  assert (Hz : INR m * omega = 2 * h) by (unfold omega, h; field; lra).
  assert (Hh0 : 0 < h).
  { unfold h. apply Rdiv_lt_0_compat; [|exact HTp].
    apply Rmult_lt_0_compat; [exact PI_RGT_0 | apply lt_0_INR; exact Hm]. }
  assert (HhPI : h < PI).
  { unfold h. apply (Rmult_lt_reg_r (INR T)); [exact HTp|].
    replace (PI * INR m / INR T * INR T) with (PI * INR m) by (field; lra).
    apply Rmult_lt_compat_l; [exact PI_RGT_0 | apply lt_INR; exact HmT]. }
  pose proof (sin_gt_0 h Hh0 HhPI) as Hsin.
  assert (Hend : INR T * (2 * h) - h = - h + 2 * INR m * PI)
    by (unfold h; field; lra).
  unfold C, S. rewrite Hz. split.
  - pose proof (sum_cos_telescope h T) as E.
    rewrite Hend, sin_period, sin_neg in E.
    apply (Rmult_eq_reg_l (2 * sin h)); [lra | lra].
  - pose proof (sum_sin_telescope h T) as E.
    rewrite Hend, cos_period, cos_neg in E.
    apply (Rmult_eq_reg_l (2 * sin h)); [lra | lra].
Qed.

Lemma difference_sums_zero (f k : nat) :
  f <> k -> (f < T)%nat -> (k < T)%nat ->
  C ((INR f - INR k) * omega) = 0 /\ S ((INR f - INR k) * omega) = 0.
Proof.
  intros Hne Hf Hk. destruct (Nat.lt_ge_cases k f) as [Hlt | Hge].
  - rewrite <- minus_INR by lia. apply harmonic_sums_zero; lia.
  - destruct (harmonic_sums_zero (k - f)) as [Hc Hs]; [lia | lia |].
    rewrite minus_INR in Hc, Hs by lia.
    replace ((INR f - INR k) * omega) with (- ((INR k - INR f) * omega)) by ring.
    unfold C, S in *. split.
    + rewrite <- Hc. apply sumR_ext. intros t _.
      replace (INR t * - ((INR k - INR f) * omega)) with (- (INR t * ((INR k - INR f) * omega)))
        by ring. apply cos_neg.
    + replace 0 with (- 0) by ring. rewrite <- Hs, <- sumR_opp.
      apply sumR_ext. intros t _.
      replace (INR t * - ((INR k - INR f) * omega)) with (- (INR t * ((INR k - INR f) * omega)))
        by ring. rewrite sin_neg. ring.
Qed.

Lemma sum_cos_zero_freq : C (0 * omega) = INR T.
Proof.
  unfold C. transitivity (sumR T (fun _ => 1)).
  - apply sumR_ext. intros t _. replace (INR t * (0 * omega)) with 0 by ring. apply cos_0.
  - rewrite sumR_const. ring.
Qed.

Lemma sum_sin_zero_freq : S (0 * omega) = 0.
Proof.
  unfold S. transitivity (sumR T (fun _ => 0)).
  - apply sumR_ext. intros t _. replace (INR t * (0 * omega)) with 0 by ring. apply sin_0.
  - rewrite sumR_const. ring.
Qed.

(** The spectrum of [x_t = b + a sin (2 pi f t / T)] at [k]. *)
Lemma sinusoid_dft (b a : R) (f k : nat) :
  let x t := b + a * sin (INR t * (INR f * omega)) in
  sumR T (fun t => x t * cos (INR t * (INR k * omega))) =
    b * C (INR k * omega) +
    a / 2 * (S ((INR f + INR k) * omega) + S ((INR f - INR k) * omega)) /\
  sumR T (fun t => x t * sin (INR t * (INR k * omega))) =
    b * S (INR k * omega) +
    a / 2 * (C ((INR f - INR k) * omega) - C ((INR f + INR k) * omega)).
Proof.
  intros x. unfold C, S, x. split.
  - transitivity (sumR T (fun t => b * cos (INR t * (INR k * omega)) +
        a / 2 * (sin (INR t * ((INR f + INR k) * omega)) +
                 sin (INR t * ((INR f - INR k) * omega))))).
    + apply sumR_ext. intros t _.
      set (A := INR t * (INR f * omega)). set (B := INR t * (INR k * omega)).
      replace (INR t * ((INR f + INR k) * omega)) with (A + B) by (unfold A, B; ring).
      replace (INR t * ((INR f - INR k) * omega)) with (A - B) by (unfold A, B; ring).
      rewrite sin_plus, sin_minus. field.
    + rewrite sumR_plus, !sumR_scal, sumR_plus. reflexivity.
  - transitivity (sumR T (fun t => b * sin (INR t * (INR k * omega)) +
        (a / 2 * cos (INR t * ((INR f - INR k) * omega)) +
         - (a / 2) * cos (INR t * ((INR f + INR k) * omega))))).
    + apply sumR_ext. intros t _.
      set (A := INR t * (INR f * omega)). set (B := INR t * (INR k * omega)).
      replace (INR t * ((INR f + INR k) * omega)) with (A + B) by (unfold A, B; ring).
      replace (INR t * ((INR f - INR k) * omega)) with (A - B) by (unfold A, B; ring).
      rewrite cos_plus, cos_minus. field.
    + rewrite !sumR_plus, !sumR_scal. ring.
Qed.

End Spectrum.

Lemma sinusoid_peak (T : nat) (HT : (0 < T)%nat) (b a : R) (f k : nat) :
  a <> 0 -> (1 <= f)%nat -> (2 * f < T)%nat -> (1 <= k)%nat -> (2 * k < T)%nat -> k <> f ->
  let x t := b + a * sin (INR t * (INR f * (2 * PI / INR T))) in
  let re k := sumR T (fun t => x t * cos (INR t * (INR k * (2 * PI / INR T)))) in
  let im k := - sumR T (fun t => x t * sin (INR t * (INR k * (2 * PI / INR T)))) in
  sqrt (re k ^ 2 + im k ^ 2) < sqrt (re f ^ 2 + im f ^ 2).
Proof.
  intros Ha Hf1 Hf2 Hk1 Hk2 Hkf x re im.
  destruct (sinusoid_dft T b a f k) as [Hrek Himk].
  destruct (sinusoid_dft T b a f f) as [Href Himf].
  unfold re, im, x. cbv zeta in Hrek, Himk, Href, Himf.
  rewrite Hrek, Himk, Href, Himf.
  destruct (harmonic_sums_zero T HT k) as [Ck Sk]; [lia | lia |].
  destruct (harmonic_sums_zero T HT f) as [Cf Sf]; [lia | lia |].
  destruct (harmonic_sums_zero T HT (f + k)) as [Cfk Sfk]; [lia | lia |].
  destruct (harmonic_sums_zero T HT (f + f)) as [Cff Sff]; [lia | lia |].
  destruct (difference_sums_zero T HT f k) as [Cd Sd]; [lia | lia | lia |].
  rewrite plus_INR in Cfk, Sfk, Cff, Sff.
  rewrite Ck, Sk, Cf, Sf, Cfk, Sfk, Cff, Sff, Cd, Sd.
  rewrite (Rminus_diag (INR f)), (sum_cos_zero_freq T), (sum_sin_zero_freq T).
  replace ((b * 0 + a / 2 * (0 + 0)) ^ 2 + (- (b * 0 + a / 2 * (0 - 0))) ^ 2) with 0 by ring.
  rewrite sqrt_0. apply sqrt_lt_R0.
  pose proof (INR_T_pos T HT) as HTp.
  match goal with |- 0 < ?e => replace e with (a * INR T * (a * INR T) / 4) by field end.
  apply Rdiv_lt_0_compat; [|lra].
  apply Rsqr_pos_lt. apply Rmult_integral_contrapositive_currified; lra.
Qed.

Lemma nth_repeat_lt {A} (x d : A) (n t : nat) : (t < n)%nat -> nth t (repeat x n) d = x.
Proof.
  revert t; induction n as [|n IH]; intros t Ht; [lia|].
  destruct t; simpl; [reflexivity | apply IH; lia].
Qed.

Lemma nth_resolve_fixed_lt {F} `{Num F} (v d : F) (n j : nat) :
  (j < n)%nat -> nth j (resolve_values (Fixed v) n) d = v.
Proof.
  intros Hj.
  rewrite (nth_indep _ d v) by (unfold resolve_values; rewrite length_map, length_seq; exact Hj).
  apply nth_resolve_fixed.
Qed.

Lemma nth_deform_R (delta : nat -> nat -> R) (rows : list (list R)) (t j : nat) :
  (t < length rows)%nat -> (j < length (nth t rows []))%nat ->
  nth j (nth t (deform delta rows) []) 0 = nth j (nth t rows []) 0 + delta t j.
Proof. exact (nth_deform delta rows t j). Qed.

Lemma nth_column (j t : nat) (rows : list (list R)) :
  nth t (column j rows) 0 = nth j (nth t rows []) 0.
Proof.
  unfold column. revert t; induction rows as [|r rows IH]; intros t; destruct t; simpl; auto;
    destruct j; reflexivity.
Qed.

(** The matrix Periodic computes from its resolved Fixed parameters
    (shift and offset 0). *)
Local Abbreviation periodic_rows a fr rows :=
  (deform (periodic_delta (length rows) (resolve_values (Fixed a) (n_units rows))
             (resolve_values (Fixed fr) (n_units rows)) (resolve_values (Fixed 0) (n_units rows))
             (resolve_values (Fixed 0) (n_units rows))) rows).

Lemma periodic_constant_entry (c : list R) (T f j t : nat) (a : R) :
  (j < length c)%nat -> (t < T)%nat ->
  nth t (column j (periodic_rows a (INR f) (repeat c T))) 0 =
  nth j c 0 + a * sin (INR t * (INR f * (2 * PI / INR T))).
Proof.
  intros Hj Ht. rewrite nth_column.
  assert (Hn : n_units (repeat c T) = length c) by (destruct T; [lia | reflexivity]).
  rewrite nth_deform_R;
    [| rewrite repeat_length; exact Ht | rewrite nth_repeat_lt; assumption].
  rewrite nth_repeat_lt by exact Ht. f_equal.
  unfold periodic_delta. rewrite Hn, repeat_length.
  change (@num_zero R Num_R) with 0.
  rewrite !nth_resolve_fixed, !nth_resolve_fixed_lt by exact Hj.
  cbn [num_add num_mul num_of_nat Num_R trig_div trig_sin trig_two_pi Trig_R].
  assert (0 < INR T) by (apply lt_0_INR; lia).
  replace (2 * PI * INR f * INR t / INR T + 0) with (INR t * (INR f * (2 * PI / INR T)))
    by (field; lra).
  ring.
Qed.

Lemma periodic_constant_column_length (c : list R) (T j : nat) (a fr : R) :
  length (column j (periodic_rows a fr (repeat c T))) = T.
Proof.
  unfold column. rewrite length_map, deform_length. apply repeat_length.
Qed.

Lemma periodic_constant_peak (c : list R) (T f k j : nat) (a : R) :
  a <> 0 -> (1 <= f)%nat -> (2 * f < T)%nat -> (1 <= k)%nat -> (2 * k < T)%nat -> k <> f ->
  (j < length c)%nat ->
  let xs := column j (periodic_rows a (INR f) (repeat c T)) in
  dft_abs xs k < dft_abs xs f.
Proof.
  intros Ha Hf1 Hf2 Hk1 Hk2 Hkf Hj xs.
  assert (HT : (0 < T)%nat) by lia.
  assert (HTp : 0 < INR T) by (apply lt_0_INR; lia).
  assert (Hre : forall m, dft_re xs m =
     sumR T (fun t => (nth j c 0 + a * sin (INR t * (INR f * (2 * PI / INR T)))) *
                      cos (INR t * (INR m * (2 * PI / INR T))))).
  { intros m. unfold dft_re, xs. rewrite periodic_constant_column_length.
    apply sumR_ext. intros t Ht. rewrite periodic_constant_entry by assumption.
    f_equal. f_equal. field. lra. }
  assert (Him : forall m, dft_im xs m =
     - sumR T (fun t => (nth j c 0 + a * sin (INR t * (INR f * (2 * PI / INR T)))) *
                        sin (INR t * (INR m * (2 * PI / INR T))))).
  { intros m. unfold dft_im, xs. rewrite periodic_constant_column_length. f_equal.
    apply sumR_ext. intros t Ht. rewrite periodic_constant_entry by assumption.
    f_equal. f_equal. field. lra. }
  unfold dft_abs. rewrite !Hre, !Him.
  exact (sinusoid_peak T HT (nth j c 0) a f k Ha Hf1 Hf2 Hk1 Hk2 Hkf).
Qed.


(** The spectrum of a constant series vanishes at every index in [[1, T)]. *)
Lemma dft_abs_constant (b : R) (T k : nat) :
  (0 < k)%nat -> (k < T)%nat -> dft_abs (repeat b T) k = 0.
Proof.
  intros Hk HkT. assert (HT : (0 < T)%nat) by lia.
  assert (HTp : 0 < INR T) by (apply lt_0_INR; lia).
  destruct (harmonic_sums_zero T HT k Hk HkT) as [Ck Sk]. cbv zeta in Ck, Sk.
  unfold dft_abs, dft_re, dft_im. rewrite repeat_length.
  assert (Hre : sumR T (fun t => nth t (repeat b T) 0 * cos (2 * PI * INR k * INR t / INR T)) =
                b * sumR T (fun t => cos (INR t * (INR k * (2 * PI / INR T))))).
  { rewrite <- sumR_scal. apply sumR_ext. intros t Ht. rewrite nth_repeat_lt by exact Ht.
    f_equal. f_equal. field. lra. }
  assert (Him : sumR T (fun t => nth t (repeat b T) 0 * sin (2 * PI * INR k * INR t / INR T)) =
                b * sumR T (fun t => sin (INR t * (INR k * (2 * PI / INR T))))).
  { rewrite <- sumR_scal. apply sumR_ext. intros t Ht. rewrite nth_repeat_lt by exact Ht.
    f_equal. f_equal. field. lra. }
  rewrite Hre, Him, Ck, Sk.
  replace ((b * 0) ^ 2 + (- (b * 0)) ^ 2) with 0 by ring. apply sqrt_0.
Qed.

Lemma float_value_20 : float_value 20%float = 20.
Proof.
  unfold float_value.
  assert (E : FloatOps.Prim2SF 20%float = SpecFloat.S754_finite false 5629499534213120 (-48))
    by (vm_compute; reflexivity).
  rewrite E. cbn iota beta. unfold powerRZ. rewrite pow_IZR.
  replace (Z.pow 2 (Z.of_nat (Pos.to_nat 48))) with 281474976710656%Z by reflexivity.
  rewrite Rmult_1_l.
  apply Rmult_eq_reg_r with (r := IZR 281474976710656); [|apply not_0_IZR; discriminate].
  rewrite Rmult_assoc, Rinv_l by (apply not_0_IZR; discriminate).
  rewrite Rmult_1_r, <- mult_IZR. reflexivity.
Qed.

Lemma column_flat20 :
  column 0 (map (map float_value) (repeat [20%float] 6)) = repeat 20 6.
Proof.
  unfold column. rewrite !map_repeat. cbn [map]. rewrite float_value_20. reflexivity.
Qed.

(** Binary64: the six sine evaluations of Periodic at [T = 6], [f = 1]. *)
Lemma sin_agrees_values (sin_f : float -> float) :
  sin_agrees sin_f ->
  sin_f 0%float = 0%float /\ sin_f 1.0471975511965976%float = 0.8660254037844386%float /\
  sin_f 2.0943951023931953%float = 0.8660254037844387%float /\
  sin_f 3.141592653589793%float = 1.2246467991473532e-16%float /\
  sin_f 4.1887902047863905%float = (-0.8660254037844384)%float /\
  sin_f 5.235987755982989%float = (-0.8660254037844386)%float.
Proof.
  unfold sin_agrees, sin_samples. intros Hs.
  repeat match goal with
  | H : Forall _ (_ :: _) |- _ => apply Forall_cons_iff in H; destruct H
  end.
  repeat split; assumption.
Qed.

(** Binary64: Periodic with amplitude 1e-20 and frequency 1 leaves a
    constant series 20 of length 6 exactly as it is. *)
Lemma periodic_float_flat (sin_f : float -> float) :
  sin_agrees sin_f ->
  let d := {| Xtr := repeat [20%float] 3; Xte := repeat [20%float] 3;
              ytr := repeat [20%float] 3; yte := repeat [20%float] 3 |} in
  @Periodic float Num_float (Trig_float sin_f) (Fixed 1e-20%float) (Fixed (AggFloat.of_nat 1))
    (Fixed 0%float) (Fixed 0%float) d = inr d.
Proof.
  intros Hs d. destruct (sin_agrees_values sin_f Hs) as (E0 & E1 & E2 & E3 & E4 & E5).
  vm_compute. rewrite E0, E1, E2, E3, E4, E5. vm_compute. reflexivity.
Qed.

Local Open Scope R_scope.

(** C9 (amended): over the reals, on a Dataset satisfying the invariants,
    Periodic with integer frequency [f] in [[1, T/2)], nonzero amplitude,
    shift 0 and offset 0 returns a Dataset, and when its full-span control
    (resp. treated) matrix holds constant series of length [T] the DFT
    magnitude of every transformed series is strictly larger at [f] than at
    any other index [k] in [[1, T/2)] (the treated half needs a control unit,
    whose parameters are resolved first); in binary64 (with the correctly
    rounded sine) amplitude 1e-20 on a constant series 20 of length 6 leaves
    it unchanged, and its spectrum is 0 at indices 1 and 2 alike. *)
Theorem periodic_spectral_peak :
  (forall (d : Dataset R) (c : list R) (T f k j : nat) (a : R),
     dataset_ok d = true -> control_units d = repeat c T -> a <> 0 ->
     (1 <= f)%nat -> (2 * f < T)%nat -> (1 <= k)%nat -> (2 * k < T)%nat -> k <> f ->
     (j < length c)%nat ->
     exists d', Periodic (Fixed a) (Fixed (INR f)) (Fixed 0) (Fixed 0) d = inr d' /\
       let xs := column j (control_units d') in
       dft_abs xs k < dft_abs xs f) /\
  (forall (d : Dataset R) (c : list R) (T f k j : nat) (a : R),
     dataset_ok d = true -> (1 <= n_units (Xtr d))%nat ->
     treated_units d = repeat c T -> a <> 0 ->
     (1 <= f)%nat -> (2 * f < T)%nat -> (1 <= k)%nat -> (2 * k < T)%nat -> k <> f ->
     (j < length c)%nat ->
     exists d', Periodic (Fixed a) (Fixed (INR f)) (Fixed 0) (Fixed 0) d = inr d' /\
       let xs := column j (treated_units d') in
       dft_abs xs k < dft_abs xs f) /\
  (forall sin_f : float -> float, sin_agrees sin_f ->
     let d := {| Xtr := repeat [20%float] 3; Xte := repeat [20%float] 3;
                 ytr := repeat [20%float] 3; yte := repeat [20%float] 3 |} in
     dataset_ok d = true /\ control_units d = repeat [20%float] 6 /\
     @Periodic float Num_float (Trig_float sin_f) (Fixed 1e-20%float) (Fixed (AggFloat.of_nat 1))
       (Fixed 0%float) (Fixed 0%float) d = inr d /\
     let xs := column 0 (map (map float_value) (control_units d)) in
     dft_abs xs 1 = 0 /\ dft_abs xs 2 = 0).
Proof.
  split; [|split].
  - intros d c T f k j a Hok Hd Ha Hf1 Hf2 Hk1 Hk2 Hkf Hj.
    assert (Hn : (1 <= n_units (Xtr d))%nat).
    { rewrite <- (n_units_control d Hok), Hd. destruct T; simpl; lia. }
    eexists. split; [apply Periodic_pos; assumption|].
    cbv zeta. rewrite control_units_rebuild, Hd.
    apply periodic_constant_peak; assumption.
  - intros d c T f k j a Hok Hn Hd Ha Hf1 Hf2 Hk1 Hk2 Hkf Hj.
    eexists. split; [apply Periodic_pos; assumption|].
    cbv zeta. rewrite treated_units_rebuild, Hd.
    apply periodic_constant_peak; assumption.
  - intros sin_f Hs d.
    assert (Hc : control_units d = repeat [20%float] 6) by reflexivity.
    split; [vm_compute; reflexivity|]. split; [exact Hc|].
    split; [exact (periodic_float_flat sin_f Hs)|].
    cbv zeta. rewrite Hc, column_flat20.
    split; apply dft_abs_constant; lia.
Qed.

Local Close Scope R_scope.

(** C8 (amended): over the reals, for a Trend of degree at least 1 with
    intercept 0 on a Dataset satisfying the invariants with at least one
    control unit, Trend returns a Dataset in which a strictly positive
    resolved coefficient of a unit strictly raises its value at the final
    time step and a strictly negative one strictly lowers it (for control and
    treated units); in binary64 a coefficient of 1e-20 on a value 20 leaves
    it unchanged: Trend returns the Dataset as it was. *)
Theorem trend_final_step_sign :
  (forall (degree : nat) (coefficient : Param R) (d : Dataset R) (j : nat),
     1 <= degree -> dataset_ok d = true -> j < n_units (Xtr d) ->
     let c := nth j (resolve_values coefficient (n_units (control_units d))) 0%R in
     let before := final_value (Xte d) j in
     exists d', Trend degree coefficient (Fixed 0%R) d = inr d' /\
       let after := final_value (Xte d') j in
       ((0 < c)%R -> (before < after)%R) /\ ((c < 0)%R -> (after < before)%R)) /\
  (forall (degree : nat) (coefficient : Param R) (d : Dataset R) (j : nat),
     1 <= degree -> dataset_ok d = true -> 1 <= n_units (Xtr d) -> j < n_units (ytr d) ->
     let c := nth j (resolve_values coefficient (n_units (treated_units d))) 0%R in
     let before := final_value (yte d) j in
     exists d', Trend degree coefficient (Fixed 0%R) d = inr d' /\
       let after := final_value (yte d') j in
       ((0 < c)%R -> (before < after)%R) /\ ((c < 0)%R -> (after < before)%R)) /\
  (let d := {| Xtr := [[20%float]]; Xte := [[20%float]];
               ytr := [[20%float]]; yte := [[20%float]] |} in
   dataset_ok d = true /\ PrimFloat.ltb 0%float 1e-20%float = true /\
   Trend 1 (Fixed 1e-20%float) (Fixed 0%float) d = inr d).
Proof.
  split; [|split].
  - intros degree coefficient d j Hdeg Hok Hj c before.
    destruct (dataset_ok_spec d Hok) as (Htr & Hte & Hlen & Hlen' & Hnt & Hc & Ht).
    assert (Hne : control_units d <> [])
      by (unfold control_units; destruct (Xtr d); [simpl in Htr; lia | discriminate]).
    assert (Hpost : Xte d <> []) by (destruct (Xte d); [simpl in Hte; lia | discriminate]).
    eexists. split; [apply Trend_pos; [exact Hdeg | exact Hok | lia]|]. cbv zeta.
    rewrite final_value_post_control by (try assumption; apply deform_length).
    rewrite trend_final_value
      by (try assumption; apply (last_row_width _ (n_units (Xtr d))); assumption).
    change (final_value (control_units d) j) with (final_value (Xtr d ++ Xte d) j).
    rewrite final_value_app by exact Hpost. fold c before.
    apply trend_final_sign, trend_time_factor.
    unfold control_units. rewrite length_app. lia.
  - intros degree coefficient d j Hdeg Hok Hn Hj c before.
    destruct (dataset_ok_spec d Hok) as (Htr & Hte & Hlen & Hlen' & Hnt & Hc & Ht).
    assert (Hne : treated_units d <> [])
      by (unfold treated_units; destruct (ytr d); [simpl in Hlen; lia | discriminate]).
    assert (Hpost : yte d <> []) by (destruct (yte d); [simpl in Hlen'; lia | discriminate]).
    eexists. split; [apply Trend_pos; assumption|]. cbv zeta.
    rewrite final_value_post_treated by (try assumption; try lia; apply deform_length).
    rewrite trend_final_value
      by (try assumption; apply (last_row_width _ (n_units (ytr d))); assumption).
    change (final_value (treated_units d) j) with (final_value (ytr d ++ yte d) j).
    rewrite final_value_app by exact Hpost. fold c before.
    apply trend_final_sign, trend_time_factor.
    unfold treated_units. rewrite length_app. lia.
  - vm_compute. repeat split.
Qed.

(** C7 (amended): on every Dataset satisfying the invariants (whatever the
    arithmetic), Trend returns a Dataset exactly when its degree is at least
    1 and there is at least one control unit, and Periodic exactly when there
    is at least one control unit (otherwise resolving the parameters, or the
    degree, is an InvalidConfiguration); the returned Dataset has the shape
    of the input in every slot. In binary64 a dataset and parameters with
    finite values can still give an infinite entry: a Trend with intercept
    1e308 on values 1e308 overflows. *)
Theorem transforms_shape_and_overflow :
  (forall (F : Type) (HN : Num F) (degree : nat) (coefficient intercept : Param F)
          (d : Dataset F),
     dataset_ok d = true ->
     (1 <= degree -> 1 <= n_units (Xtr d) ->
      exists d', Trend degree coefficient intercept d = inr d' /\ shape d' = shape d) /\
     (degree = 0 \/ n_units (Xtr d) = 0 ->
      Trend degree coefficient intercept d = inl InvalidConfiguration)) /\
  (forall (F : Type) (HN : Num F) (HT : Trig F)
          (amplitude frequency shift offset : Param F) (d : Dataset F),
     dataset_ok d = true ->
     (1 <= n_units (Xtr d) ->
      exists d', Periodic amplitude frequency shift offset d = inr d' /\ shape d' = shape d) /\
     (n_units (Xtr d) = 0 ->
      Periodic amplitude frequency shift offset d = inl InvalidConfiguration)) /\
  (let d := {| Xtr := [[1e308%float]]; Xte := [[1e308%float]];
               ytr := [[0%float]]; yte := [[0%float]] |} in
   dataset_ok d = true /\ all_finite d = true /\
   exists d', Trend 1 (Fixed 0%float) (Fixed 1e308%float) d = inr d' /\ all_finite d' = false).
Proof.
  split; [|split].
  - intros F HN degree coefficient intercept d Hok.
    destruct (dataset_ok_spec d Hok) as (_ & _ & Hlen & _).
    split; [|apply Trend_invalid; exact Hok].
    intros Hdeg Hn. eexists. split; [apply Trend_pos; assumption|].
    apply rebuild_shape; [apply deform_shape | apply deform_shape | exact Hlen].
  - intros F HN HT amplitude frequency shift offset d Hok.
    destruct (dataset_ok_spec d Hok) as (_ & _ & Hlen & _).
    split; [|apply Periodic_invalid; exact Hok].
    intros Hn. eexists. split; [apply Periodic_pos; assumption|].
    apply rebuild_shape; [apply deform_shape | apply deform_shape | exact Hlen].
  - intros d. split; [vm_compute; reflexivity|]. split; [vm_compute; reflexivity|].
    exists {| Xtr := [[infinity]]; Xte := [[infinity]]; ytr := [[1e308%float]];
              yte := [[1e308%float]] |}.
    split; vm_compute; reflexivity.
Qed.

End TransformFacts.

Module TransformWitnesses.
Import PrimFloat.
Import Stdlib.Reals.R_sqrt.
Import Transforms.
Import TransformFacts.

Lemma transforms_shape_and_overflow_witness :
  let d := {| Xtr := [[1%R; 2%R]]; Xte := [[3%R; 4%R]]; ytr := [[5%R]]; yte := [[6%R]] |} in
  let d0 := {| Xtr := [[]]; Xte := [[]]; ytr := [[5%R]]; yte := [[6%R]] |} in
  dataset_ok d = true /\ dataset_ok d0 = true /\
  (exists d', Trend 2 (Fixed 2%R) (Fixed 3%R) d = inr d' /\ shape d' = shape d) /\
  Trend 0 (Fixed 2%R) (Fixed 3%R) d = inl InvalidConfiguration /\
  (exists d', Periodic (Fixed 1%R) (Fixed 2%R) (Fixed 0%R) (Fixed 0%R) d = inr d' /\
              shape d' = shape d) /\
  Periodic (Fixed 1%R) (Fixed 2%R) (Fixed 0%R) (Fixed 0%R) d0 = inl InvalidConfiguration.
Proof.
  intros d d0.
  assert (Hok : dataset_ok d = true) by reflexivity.
  assert (Hok0 : dataset_ok d0 = true) by reflexivity.
  split; [exact Hok|]. split; [exact Hok0|]. split; [|split; [|split]].
  - exact (proj1 (proj1 transforms_shape_and_overflow R Num_R 2 (Fixed 2%R) (Fixed 3%R) d Hok)
             ltac:(lia) ltac:(simpl; lia)).
  - exact (proj2 (proj1 transforms_shape_and_overflow R Num_R 0 (Fixed 2%R) (Fixed 3%R) d Hok)
             (or_introl eq_refl)).
  - exact (proj1 (proj1 (proj2 transforms_shape_and_overflow) R Num_R Trig_R
             (Fixed 1%R) (Fixed 2%R) (Fixed 0%R) (Fixed 0%R) d Hok) ltac:(simpl; lia)).
  - exact (proj2 (proj1 (proj2 transforms_shape_and_overflow) R Num_R Trig_R
             (Fixed 1%R) (Fixed 2%R) (Fixed 0%R) (Fixed 0%R) d0 Hok0) eq_refl).
Defined.

(** Binary64 counterexample to "finite inputs and parameters give finite
    outputs": a Trend with intercept 1e308 on entries 1e308. *)
Lemma transform_overflow_cex :
  ~ (forall (d : Dataset float) (degree : nat) (c i : float),
       1 <= degree -> is_finite c = true -> is_finite i = true ->
       dataset_ok d = true -> all_finite d = true ->
       forall d', Trend degree (Fixed c) (Fixed i) d = inr d' -> all_finite d' = true).
Proof.
  intros H.
  pose proof (H {| Xtr := [[1e308%float]]; Xte := [[1e308%float]];
                   ytr := [[0%float]]; yte := [[0%float]] |} 1 0%float 1e308%float
                ltac:(lia) ltac:(vm_compute; reflexivity) ltac:(vm_compute; reflexivity)
                ltac:(vm_compute; reflexivity) ltac:(vm_compute; reflexivity)
                {| Xtr := [[infinity]]; Xte := [[infinity]]; ytr := [[1e308%float]];
                   yte := [[1e308%float]] |}
                ltac:(vm_compute; reflexivity)) as E.
  vm_compute in E. discriminate.
Qed.

Lemma trend_final_step_sign_witness :
  let d := {| Xtr := [[1%R]; [2%R]]; Xte := [[3%R]]; ytr := [[1%R]; [1%R]]; yte := [[1%R]] |} in
  (1 <= 1 /\ dataset_ok d = true /\ 0 < n_units (Xtr d) /\
   let c := nth 0 (resolve_values (Fixed 2%R) (n_units (control_units d))) 0%R in
   let before := final_value (Xte d) 0 in
   exists d', Trend 1 (Fixed 2%R) (Fixed 0%R) d = inr d' /\
     let after := final_value (Xte d') 0 in
     ((0 < c)%R -> (before < after)%R) /\ ((c < 0)%R -> (after < before)%R)) /\
  (1 <= 1 /\ dataset_ok d = true /\ 1 <= n_units (Xtr d) /\ 0 < n_units (ytr d) /\
   let c := nth 0 (resolve_values (Fixed (-1)%R) (n_units (treated_units d))) 0%R in
   let before := final_value (yte d) 0 in
   exists d', Trend 1 (Fixed (-1)%R) (Fixed 0%R) d = inr d' /\
     let after := final_value (yte d') 0 in
     ((0 < c)%R -> (before < after)%R) /\ ((c < 0)%R -> (after < before)%R)).
Proof.
  intros d.
  assert (Hdeg : 1 <= 1) by lia.
  assert (Hok : dataset_ok d = true) by reflexivity.
  assert (Hc : 0 < n_units (Xtr d)) by (simpl; lia).
  assert (Ht : 0 < n_units (ytr d)) by (simpl; lia).
  split.
  - split; [exact Hdeg|]. split; [exact Hok|]. split; [exact Hc|].
    exact (proj1 trend_final_step_sign 1 (Fixed 2%R) d 0 Hdeg Hok Hc).
  - split; [exact Hdeg|]. split; [exact Hok|]. split; [exact Hc|]. split; [exact Ht|].
    exact (proj1 (proj2 trend_final_step_sign) 1 (Fixed (-1)%R) d 0 Hdeg Hok Hc Ht).
Defined.

(** Binary64 counterexample to the strict increase: coefficient 1e-20 on a
    final value 20. *)
Lemma trend_tiny_coefficient_cex :
  ~ (forall (degree : nat) (c : float) (d : Dataset float) (j : nat),
       1 <= degree -> dataset_ok d = true -> j < n_units (Xtr d) -> ltb 0%float c = true ->
       exists d', Trend degree (Fixed c) (Fixed 0%float) d = inr d' /\
         ltb (final_value (Xte d) j) (final_value (Xte d') j) = true).
Proof.
  intros H.
  set (d0 := {| Xtr := [[20%float]]; Xte := [[20%float]];
                ytr := [[20%float]]; yte := [[20%float]] |}).
  destruct (H 1 1e-20%float d0 0 ltac:(lia) ltac:(vm_compute; reflexivity) ltac:(simpl; lia)
              ltac:(vm_compute; reflexivity)) as (d' & E & Hlt).
  assert (E0 : Trend 1 (Fixed 1e-20%float) (Fixed 0%float) d0 = inr d0)
    by (vm_compute; reflexivity).
  rewrite E0 in E. injection E as <-.
  vm_compute in Hlt. discriminate.
Qed.

Lemma sin_table_agrees : sin_agrees sin_table.
Proof. unfold sin_agrees, sin_samples. repeat constructor. Qed.

Lemma periodic_spectral_peak_witness :
  let d := {| Xtr := [[5%R]; [5%R]]; Xte := [[5%R]; [5%R]; [5%R]];
              ytr := [[7%R]; [7%R]]; yte := [[7%R]; [7%R]; [7%R]] |} in
  (dataset_ok d = true /\ control_units d = repeat [5%R] 5 /\ 1%R <> 0%R /\
   exists d', Periodic (Fixed 1%R) (Fixed (INR 1)) (Fixed 0%R) (Fixed 0%R) d = inr d' /\
     let xs := column 0 (control_units d') in
     (dft_abs xs 2 < dft_abs xs 1)%R) /\
  (dataset_ok d = true /\ 1 <= n_units (Xtr d) /\ treated_units d = repeat [7%R] 5 /\
   1%R <> 0%R /\
   exists d', Periodic (Fixed 1%R) (Fixed (INR 1)) (Fixed 0%R) (Fixed 0%R) d = inr d' /\
     let xs := column 0 (treated_units d') in
     (dft_abs xs 2 < dft_abs xs 1)%R) /\
  (sin_agrees sin_table /\
   let d := {| Xtr := repeat [20%float] 3; Xte := repeat [20%float] 3;
               ytr := repeat [20%float] 3; yte := repeat [20%float] 3 |} in
   dataset_ok d = true /\ control_units d = repeat [20%float] 6 /\
   @Periodic float Num_float (Trig_float sin_table) (Fixed 1e-20%float)
     (Fixed (AggFloat.of_nat 1)) (Fixed 0%float) (Fixed 0%float) d = inr d /\
   let xs := column 0 (map (map float_value) (control_units d)) in
   dft_abs xs 1 = 0%R /\ dft_abs xs 2 = 0%R).
Proof.
  intros d.
  assert (Hok : dataset_ok d = true) by reflexivity.
  assert (Hc : control_units d = repeat [5%R] 5) by reflexivity.
  assert (Ht : treated_units d = repeat [7%R] 5) by reflexivity.
  assert (Hn : 1 <= n_units (Xtr d)) by (simpl; lia).
  assert (Ha : 1%R <> 0%R) by exact R1_neq_R0.
  split; [|split].
  - split; [exact Hok|]. split; [exact Hc|]. split; [exact Ha|].
    exact (proj1 periodic_spectral_peak d [5%R] 5 1 2 0 1%R Hok Hc Ha
             ltac:(lia) ltac:(lia) ltac:(lia) ltac:(lia) ltac:(lia) ltac:(simpl; lia)).
  - split; [exact Hok|]. split; [exact Hn|]. split; [exact Ht|]. split; [exact Ha|].
    exact (proj1 (proj2 periodic_spectral_peak) d [7%R] 5 1 2 0 1%R Hok Hn Ht Ha
             ltac:(lia) ltac:(lia) ltac:(lia) ltac:(lia) ltac:(lia) ltac:(simpl; lia)).
  - split; [exact sin_table_agrees|].
    exact (proj2 (proj2 periodic_spectral_peak) sin_table sin_table_agrees).
Defined.

(** Binary64 counterexample to the spectral peak: amplitude 1e-20 on a
    constant series 20 of length 6 is lost to rounding, and the spectrum of
    the returned series is 0 at index 2 as at index 1. *)
Lemma periodic_float_cex :
  ~ (forall (sin_f : float -> float) (d : Dataset float) (c : list float) (T f k j : nat)
            (a : float),
       sin_agrees sin_f -> dataset_ok d = true -> control_units d = repeat c T ->
       (a =? 0)%float = false ->
       1 <= f -> 2 * f < T -> 1 <= k -> 2 * k < T -> k <> f -> j < length c ->
       exists d', @Periodic float Num_float (Trig_float sin_f) (Fixed a)
                    (Fixed (AggFloat.of_nat f)) (Fixed 0%float) (Fixed 0%float) d = inr d' /\
         let xs := column j (map (map float_value) (control_units d')) in
         (dft_abs xs k < dft_abs xs f)%R).
Proof.
  intros H.
  set (d0 := {| Xtr := repeat [20%float] 3; Xte := repeat [20%float] 3;
                ytr := repeat [20%float] 3; yte := repeat [20%float] 3 |}).
  assert (Hc : control_units d0 = repeat [20%float] 6) by reflexivity.
  destruct (H sin_table d0 [20%float] 6 1 2 0 1e-20%float sin_table_agrees
              ltac:(vm_compute; reflexivity) Hc ltac:(vm_compute; reflexivity)
              ltac:(lia) ltac:(lia) ltac:(lia) ltac:(lia) ltac:(lia) ltac:(simpl; lia))
    as (d' & E & Hlt).
  assert (E0 : @Periodic float Num_float (Trig_float sin_table) (Fixed 1e-20%float)
                 (Fixed (AggFloat.of_nat 1)) (Fixed 0%float) (Fixed 0%float) d0 = inr d0)
    by exact (periodic_float_flat sin_table sin_table_agrees).
  rewrite E0 in E. injection E as <-.
  cbv zeta in Hlt. rewrite Hc, column_flat20, !dft_abs_constant in Hlt by lia.
  lra.
Qed.

End TransformWitnesses.

Module ExtraWitnesses.
Import Placebo PlaceboToy.
Import Stdlib.Reals.R_sqrt.

Local Open Scope string_scope.

Lemma execute_empty_effects_witness :
  ([] = @nil Model \/ [("d", 2)] = @nil (string * nat)) /\
  toy_execute [] [("d", 2)] [] = (inr {| effects := [] |}, []).
Proof.
  split; [left; reflexivity|].
  exact (proj1 (PlaceboExtra.execute_empty_effects (fun d => d) (fun _ i => i)
                  [] [("d", 2)] []) (or_introl eq_refl)).
Defined.

Lemma execute_progress_final_counts_witness :
  PlaceboProgress.execute_progress nat nat string (fun d => d) (fun _ i => i)
    [echo "a"; echo "b"] [("d1", 1); ("d2", 2)] [] =
    (inr {| effects := [(("a", "d1"), [0]); (("b", "d1"), [0]);
                        (("a", "d2"), [0; 1]); (("b", "d2"), [0; 1])] |},
     ([("a", "d1", 0); ("b", "d1", 0); ("a", "d2", 0); ("a", "d2", 1);
       ("b", "d2", 0); ("b", "d2", 1)],
      {| PlaceboProgress.model_task := {| PlaceboProgress.completed := 4; PlaceboProgress.total := 2 |};
         PlaceboProgress.data_task := {| PlaceboProgress.completed := 2; PlaceboProgress.total := 2 |};
         PlaceboProgress.unit_task := {| PlaceboProgress.completed := 6; PlaceboProgress.total := 3 |} |}))
  /\ (2 = 2 /\ 4 = 2 * 2 /\ 6 = 2 * 3)%nat.
Proof.
  assert (He : PlaceboProgress.execute_progress nat nat string (fun d => d) (fun _ i => i)
    [echo "a"; echo "b"] [("d1", 1); ("d2", 2)] [] =
    (inr {| effects := [(("a", "d1"), [0]); (("b", "d1"), [0]);
                        (("a", "d2"), [0; 1]); (("b", "d2"), [0; 1])] |},
     ([("a", "d1", 0); ("b", "d1", 0); ("a", "d2", 0); ("a", "d2", 1);
       ("b", "d2", 0); ("b", "d2", 1)],
      {| PlaceboProgress.model_task := {| PlaceboProgress.completed := 4; PlaceboProgress.total := 2 |};
         PlaceboProgress.data_task := {| PlaceboProgress.completed := 2; PlaceboProgress.total := 2 |};
         PlaceboProgress.unit_task := {| PlaceboProgress.completed := 6; PlaceboProgress.total := 3 |} |})))
    by (vm_compute; reflexivity).
  split; [exact He|].
  exact (ProgressFacts.execute_progress_final_counts (fun d => d) (fun _ i => i)
           [echo "a"; echo "b"] [("d1", 1); ("d2", 2)] [] _ _ _ He).
Defined.

Local Open Scope R_scope.

Lemma model_to_df_scale_witness :
  (100 <> 0) /\
  AggExact.Effect (AggExact._model_to_df (fun x _ => x) R (fun e => 100 * e) "m" "d" [1; 3]) =
  100 * AggExact.Effect (AggExact._model_to_df (fun x _ => x) R (fun e => e) "m" "d" [1; 3]).
Proof.
  assert (Hc : 100 <> 0) by lra.
  split; [exact Hc|].
  exact (proj1 (AggExtra.model_to_df_scale (fun x _ => x) R (fun e => e) 100 "m" "d" [1; 3] Hc)).
Defined.

Lemma model_to_df_shift_witness :
  ([1; 3] <> @nil R) /\
  AggExact.Standard_Deviation
    (AggExact._model_to_df (fun x _ => x) R (fun e => e + 5) "m" "d" [1; 3]) =
  AggExact.Standard_Deviation (AggExact._model_to_df (fun x _ => x) R (fun e => e) "m" "d" [1; 3]).
Proof.
  assert (Hne : [1; 3] <> @nil R) by discriminate.
  split; [exact Hne|].
  exact (proj1 (proj2 (AggExtra.model_to_df_shift (fun x _ => x) R (fun e => e) 5 "m" "d"
                         [1; 3] Hne))).
Defined.

Lemma model_to_df_pvalue_vs_std_error_witness :
  (2 <= length [1; 3])%nat /\
  0 < AggExact.Standard_Deviation (AggExact._model_to_df (fun x _ => x) R (fun e => e) "m" "d" [1; 3]) /\
  (let row := AggExact._model_to_df (fun x _ => x) R (fun e => e) "m" "d" [1; 3] in
   AggExact.p_value row =
   2 * Rabs (AggExact.Effect row / AggExact.Standard_Error row * sqrt (INR 1 / INR 2))).
Proof.
  assert (Hn : (2 <= length [1; 3])%nat) by (simpl; lia).
  assert (Hsd : 0 < AggExact.Standard_Deviation
                      (AggExact._model_to_df (fun x _ => x) R (fun e => e) "m" "d" [1; 3])).
  { simpl. unfold AggExact.np_std, AggExact.np_var, AggExact.np_mean, AggExact.np_sum.
    simpl. apply sqrt_lt_R0. lra. }
  split; [exact Hn|]. split; [exact Hsd|].
  exact (AggExtra.model_to_df_pvalue_vs_std_error (fun x _ => x) R (fun e => e) "m" "d"
           [1; 3] Hn Hsd).
Defined.

Lemma execute_to_df_row_order_witness :
  exists rows,
    AggExact.to_df (fun x _ => x) nat INR
      [(("a", "d1"), [0%nat; 1%nat]); (("b", "d1"), [0%nat; 1%nat])] = inr rows /\
    map (fun row => (AggExact.Model row, AggExact.Dataset row)) rows =
    [("a", "d1"); ("b", "d1")].
Proof.
  assert (Hms : NoDup (map (_model_name _ _ _) [echo "a"; echo "b"]))
    by (repeat constructor; simpl; intuition discriminate).
  assert (Hds : NoDup (map fst [("d1", 2%nat)])) by (repeat constructor; simpl; tauto).
  assert (He : toy_execute [echo "a"; echo "b"] [("d1", 2%nat)] [] =
                 (inr {| effects := [(("a", "d1"), [0%nat; 1%nat]); (("b", "d1"), [0%nat; 1%nat])] |},
                  [("a", "d1", 0%nat); ("a", "d1", 1%nat); ("b", "d1", 0%nat); ("b", "d1", 1%nat)]))
    by reflexivity.
  assert (Hpair : exists r1 r2 : nat, In r1 [0%nat; 1%nat] /\ In r2 [0%nat; 1%nat] /\ INR r1 <> INR r2)
    by (exists 0%nat, 1%nat; simpl; split; [auto|]; split; [auto|]; simpl; lra).
  destruct (proj2 (AggExtra.to_df_inr_iff (fun x _ => x) nat INR
                     [(("a", "d1"), [0%nat; 1%nat]); (("b", "d1"), [0%nat; 1%nat])]))
    as [rows Hrows].
  { split; [discriminate|]. repeat constructor; exact Hpair. }
  exists rows. split; [exact Hrows|].
  exact (ComposeFacts.execute_to_df_row_order (fun d => d) (fun _ i => i) (fun x _ => x) INR
           [echo "a"; echo "b"] [("d1", 2%nat)] [] _ _ rows Hms Hds He Hrows).
Defined.

Lemma execute_to_df_single_control_witness :
  toy_execute [echo "m"] [("d", 1%nat)] [] =
    (inr {| effects := [(("m", "d"), [0%nat])] |}, [("m", "d", 0%nat)]) /\
  AggExact.to_df (fun x _ => x) nat INR [(("m", "d"), [0%nat])] = inl SchemaError.
Proof.
  assert (He : toy_execute [echo "m"] [("d", 1%nat)] [] =
                 (inr {| effects := [(("m", "d"), [0%nat])] |}, [("m", "d", 0%nat)]))
    by reflexivity.
  split; [exact He|].
  exact (ComposeFacts.execute_to_df_single_control (fun d => d) (fun _ i => i) (fun x _ => x) INR
           [echo "m"] [("d", 1%nat)] "d" 1%nat [] _ _
           ltac:(repeat constructor; simpl; tauto) (or_introl eq_refl) (le_n 1)
           ltac:(discriminate) He).
Defined.

Lemma execute_to_df_float_no_control_witness :
  toy_execute [echo "m"] [("d", 0%nat)] [] =
    (inr {| effects := [(("m", "d"), [])] |}, []) /\
  AggFloat.to_df (fun _ _ => PrimFloat.zero) nat (fun n => AggFloat.of_nat n)
    [(("m", "d"), [])] = inl SchemaError.
Proof.
  assert (He : toy_execute [echo "m"] [("d", 0%nat)] [] =
                 (inr {| effects := [(("m", "d"), [])] |}, [])) by reflexivity.
  split; [exact He|].
  exact (ComposeFacts.execute_to_df_float_no_control (fun d => d) (fun _ i => i)
           (fun _ _ => PrimFloat.zero) (fun n => AggFloat.of_nat n)
           [echo "m"] [("d", 0%nat)] "d" 0%nat [] _ _
           ltac:(repeat constructor; simpl; tauto) (or_introl eq_refl) eq_refl
           ltac:(discriminate) He).
Defined.

End ExtraWitnesses.
